(** * EDXNet template expressions (Core/TemplateExpression.h)

    A shallow embedding of the lazy elementwise expression nodes of EDXNet:
    the leaves [TScalarExp] and [TConstantExp], the composite nodes
    [TBinaryExp] and [TUnaryExp], the operation functors and the composition
    operators, followed by the properties the specification states about
    them.

    Conventions.
    - C++ [float] is IEEE 754 binary32, modelled by the Standard Library's
      [spec_float] at precision 24 and maximal exponent 128, with
      round-to-nearest-even arithmetic ([SFadd], [SFdiv], ...).
    - [const T&] members are references into the caller's memory; the memory
      is explicit and every method is a computation over it.
    - The lifetime invariant of the header (referents outlive the node) is
      assumed: memory is total, and the sub-expressions a composite node
      refers to are its sub-terms. *)

From Stdlib Require Import ZArith List Bool Lia.
From Stdlib Require Import Floats.SpecFloat.
Import ListNotations.

Local Open Scope Z_scope.

(** ** Scalars *)

Module Float32.
Definition prec : Z := 24.
Definition emax : Z := 128.

Definition add := SFadd prec emax.
Definition sub := SFsub prec emax.
Definition mul := SFmul prec emax.
Definition div := SFdiv prec emax.
Definition sqrt := SFsqrt prec emax.
Definition abs := SFabs.
Definition ltb := SFltb.

Definition zero : spec_float := S754_zero false.
Definition nan : spec_float := S754_nan.

(** The float nearest to an integer. *)
Definition of_Z (n : Z) : spec_float := binary_normalize prec emax n 0 false.

Definition is_nan (x : spec_float) : bool :=
  match x with S754_nan => true | _ => false end.
Definition is_infinity (x : spec_float) : bool :=
  match x with S754_infinity _ => true | _ => false end.
Definition is_zero (x : spec_float) : bool :=
  match x with S754_zero _ => true | _ => false end.
Definition sign (x : spec_float) : bool :=
  match x with
  | S754_zero s | S754_infinity s | S754_finite s _ _ => s
  | S754_nan => false
  end.
End Float32.

(** C++ [float]. *)
Definition float : Type := spec_float.

(** The scalar types [T] a [TScalarExp<T>] is instantiated at. *)
Inductive ctype : Type := Tfloat | Tdouble | Tint.

(** Values of a scalar type: a binary32 float, a binary64 float, a 32-bit
    signed integer. *)
Definition cval (T : ctype) : Type :=
  match T with
  | Tfloat => spec_float
  | Tdouble => spec_float
  | Tint => Z
  end.

(** Narrowing of a binary64 value to binary32 (round to nearest even, overflow
    to infinity). *)
Definition double_to_float (d : spec_float) : float :=
  match d with
  | S754_finite s m e => binary_round Float32.prec Float32.emax s m e
  | _ => d
  end.

(** The implicit conversion [T -> float] of [return val;]. *)
Definition to_float (T : ctype) : cval T -> float :=
  match T with
  | Tfloat => fun v => v
  | Tdouble => double_to_float
  | Tint => Float32.of_Z
  end.

(** ** Memory and computations *)

Definition loc : Type := Z.

(** Modelled from the spec: the class [Array<int>] is missing from the
    sources; it is an ordered sequence of dimension sizes with structural
    equality, and copying it copies the elements. *)
Definition Array_int : Type := list Z.

(** Modelled from the spec: the class [TensorIndex] is missing from the
    sources; it is the per-axis position in the output, which the nodes of
    this header only pass on. *)
Definition TensorIndex : Type := list Z.

(** The caller's memory: typed scalar variables and integer arrays. *)
Record Memory : Type := {
  scalars : forall T : ctype, loc -> cval T;
  arrays : loc -> Array_int
}.

(** A method call: it receives the memory and returns its result with the
    memory it leaves behind. *)
Definition M (A : Type) : Type := Memory -> A * Memory.

Definition ret {A} (a : A) : M A := fun m => (a, m).
Definition bind {A B} (c : M A) (k : A -> M B) : M B :=
  fun m => let (a, m') := c m in k a m'.

Notation "x <- c ;; k" := (bind c (fun x => k))
  (at level 61, c at next level, right associativity).

Definition value {A} (r : A * Memory) : A := fst r.
Definition after {A} (r : A * Memory) : Memory := snd r.

(** Reading through a [const T&]. *)
Definition load (T : ctype) (r : loc) : M (cval T) :=
  fun m => (scalars m T r, m).
Definition load_array (r : loc) : M Array_int :=
  fun m => (arrays m r, m).

Definition ctype_eq_dec (a b : ctype) : {a = b} + {a <> b}.
Proof. decide equality. Defined.

(** Assignments made by the caller. *)
Definition update_scalar (T : ctype) (r : loc) (v : cval T) (m : Memory) : Memory :=
  {| scalars := fun T' r' =>
       match ctype_eq_dec T T' with
       | left E =>
           if Z.eqb r r' then eq_rect T cval v T' E else scalars m T' r'
       | right _ => scalars m T' r'
       end;
     arrays := arrays m |}.

Definition update_array (r : loc) (a : Array_int) (m : Memory) : Memory :=
  {| scalars := scalars m;
     arrays := fun r' => if Z.eqb r r' then a else arrays m r' |}.

Definition store (T : ctype) (r : loc) (v : cval T) : M unit :=
  fun m => (tt, update_scalar T r v m).
Definition store_array (r : loc) (a : Array_int) : M unit :=
  fun m => (tt, update_array r a m).

(** ** External collaborators

    The header is included before the tensor class and relies on names it
    does not define: the math library, the shape broadcaster and the
    array-backed tensor leaf. *)

(** Modelled from the spec: [Math::Sqrt], [Math::Square] and [Math::Abs] are
    missing from the sources; the specification requires pure scalar functions
    with IEEE behaviour, here the correctly rounded square root, [x * x] and
    the sign-clearing absolute value. *)
Definition Math_Sqrt (val : float) : float := Float32.sqrt val.
Definition Math_Square (val : float) : float := Float32.mul val val.
Definition Math_Abs (val : float) : float := Float32.abs val.

(** What remains abstract: [Math::Exp] and [Math::Log] (total functions on
    floats), [BroadcastShape] (which may signal incompatible shapes) and a
    leaf type [Tensor] with the two methods every expression has. *)
Class Externals (Tensor : Type) : Type := {
  Math_Exp : float -> float;
  Math_Log : float -> float;
  BroadcastShape : Array_int -> Array_int -> option Array_int;
  tensor_Eval : Tensor -> Z -> TensorIndex -> M float;
  tensor_Shape : Tensor -> M Array_int
}.

(** ** Operation functors *)

Inductive BinaryOp : Type := AddOp | MinusOp | MulOp | DivOp.
Inductive UnaryOp : Type := ExpOp | SqrtOp | SquareOp | LogOp | ReluOp | AbsOp.

Definition AddOp_Exec (a b : float) : float := Float32.add a b.
Definition MinusOp_Exec (a b : float) : float := Float32.sub a b.
Definition MulOp_Exec (a b : float) : float := Float32.mul a b.
Definition DivOp_Exec (a b : float) : float := Float32.div a b.

Definition ReluOp_Exec (val : float) : float :=
  if Float32.ltb Float32.zero val then val else Float32.zero.

(** [TOp::Exec] of a binary node. *)
Definition BinaryOp_Exec (TOp : BinaryOp) : float -> float -> float :=
  match TOp with
  | AddOp => AddOp_Exec
  | MinusOp => MinusOp_Exec
  | MulOp => MulOp_Exec
  | DivOp => DivOp_Exec
  end.

(** [x > 0.0f] read off the representation: positive and not zero, not NaN. *)
Definition strictly_positive (x : float) : bool :=
  match x with
  | S754_finite false _ _ => true
  | S754_infinity false => true
  | _ => false
  end.

(** [x < 0.0f] likewise. *)
Definition strictly_negative (x : float) : bool :=
  match x with
  | S754_finite true _ _ => true
  | S754_infinity true => true
  | _ => false
  end.

(** ** Expression nodes *)

(** The expression types the templates generate, over a leaf type [Tensor].
    [TScalarExp] keeps the reference [val]; [TConstantExp] keeps its own
    [val] and [shape]; composite nodes refer to their operands. *)
Inductive Exp (Tensor : Type) : Type :=
| TScalarExp (T : ctype) (val : loc)
| TConstantExp (val : float) (shape : Array_int)
| TTensor (t : Tensor)
| TBinaryExp (TOp : BinaryOp) (lhs rhs : Exp Tensor)
| TUnaryExp (TOp : UnaryOp) (param : Exp Tensor).

Arguments TScalarExp {Tensor} T val.
Arguments TConstantExp {Tensor} val shape.
Arguments TTensor {Tensor} t.
Arguments TBinaryExp {Tensor} TOp lhs rhs.
Arguments TUnaryExp {Tensor} TOp param.

Section Expression.
Context {Tensor : Type} `{Ext : Externals Tensor}.

Definition ExpOp_Exec (val : float) : float := Math_Exp val.
Definition SqrtOp_Exec (val : float) : float := Math_Sqrt val.
Definition SquareOp_Exec (val : float) : float := Math_Square val.
Definition LogOp_Exec (val : float) : float := Math_Log val.
Definition AbsOp_Exec (val : float) : float := Math_Abs val.

(** [TOp::Exec] of a unary node. *)
Definition UnaryOp_Exec (TOp : UnaryOp) : float -> float :=
  match TOp with
  | ExpOp => ExpOp_Exec
  | SqrtOp => SqrtOp_Exec
  | SquareOp => SquareOp_Exec
  | LogOp => LogOp_Exec
  | ReluOp => ReluOp_Exec
  | AbsOp => AbsOp_Exec
  end.

(** [Eval(i, broadcastIndex)]. C++ does not fix the order in which the two
    operands of [TOp::Exec] are evaluated; they run left to right here, and
    [Eval_after] shows that read-only operands cannot tell. *)
Fixpoint Eval (e : Exp Tensor) (i : Z) (broadcastIndex : TensorIndex) : M float :=
  match e with
  | TScalarExp T val => v <- load T val ;; ret (to_float T v)
  | TConstantExp val _ => ret val
  | TTensor t => tensor_Eval t i broadcastIndex
  | TBinaryExp TOp lhs rhs =>
      a <- Eval lhs i broadcastIndex ;;
      b <- Eval rhs i broadcastIndex ;;
      ret (BinaryOp_Exec TOp a b)
  | TUnaryExp TOp param =>
      a <- Eval param i broadcastIndex ;;
      ret (UnaryOp_Exec TOp a)
  end.

(** [Shape()]; [None] is the broadcaster's incompatibility signal. *)
Fixpoint Shape (e : Exp Tensor) : M (option Array_int) :=
  match e with
  | TScalarExp _ _ => ret (Some [1])
  | TConstantExp _ shape => ret (Some shape)
  | TTensor t => s <- tensor_Shape t ;; ret (Some s)
  | TBinaryExp _ lhs rhs =>
      l <- Shape lhs ;;
      r <- Shape rhs ;;
      ret (match l, r with
           | Some sl, Some sr => BroadcastShape sl sr
           | _, _ => None
           end)
  | TUnaryExp _ param => Shape param
  end.

(** ** Construction *)

(** [TExp<ExpType>::Self]: the expression itself, seen at its own type. *)
Definition Self (e : Exp Tensor) : Exp Tensor := e.

(** [TScalarExp(const T& _val)] and [Scalar(val)]: bind the reference. *)
Definition TScalarExp_ctor (T : ctype) (_val : loc) : M (Exp Tensor) :=
  ret (TScalarExp T _val).
Definition Scalar (T : ctype) (val : loc) : M (Exp Tensor) :=
  TScalarExp_ctor T val.

(** [TConstantExp(const float _val, const Array<int>& _shape)]: [_val] is
    passed by value, the array behind [_shape] is copied into the node. *)
Definition TConstantExp_ctor (_val : float) (_shape : loc) : M (Exp Tensor) :=
  shape <- load_array _shape ;;
  ret (TConstantExp _val shape).

(** [TConstantExp(const float _val, TShape... shape)]: delegates with the
    array built from the pack. *)
Definition TConstantExp_ctor_pack (_val : float) (shape : list Z) : M (Exp Tensor) :=
  ret (TConstantExp _val shape).

Definition ElementWiseBinaryOpExpression (TOp : BinaryOp) (lhs rhs : Exp Tensor)
  : Exp Tensor :=
  TBinaryExp TOp (Self lhs) (Self rhs).

Definition operator_add (lhs rhs : Exp Tensor) : Exp Tensor :=
  ElementWiseBinaryOpExpression AddOp lhs rhs.
Definition operator_sub (lhs rhs : Exp Tensor) : Exp Tensor :=
  ElementWiseBinaryOpExpression MinusOp lhs rhs.
Definition operator_mul (lhs rhs : Exp Tensor) : Exp Tensor :=
  ElementWiseBinaryOpExpression MulOp lhs rhs.
Definition operator_div (lhs rhs : Exp Tensor) : Exp Tensor :=
  ElementWiseBinaryOpExpression DivOp lhs rhs.

Definition ElementWiseUnaryOpExpression (TOp : UnaryOp) (param : Exp Tensor)
  : Exp Tensor :=
  TUnaryExp TOp (Self param).

Definition ExponentExp (param : Exp Tensor) : Exp Tensor :=
  ElementWiseUnaryOpExpression ExpOp param.
Definition SqrtExp (param : Exp Tensor) : Exp Tensor :=
  ElementWiseUnaryOpExpression SqrtOp param.
Definition SquareExp (param : Exp Tensor) : Exp Tensor :=
  ElementWiseUnaryOpExpression SquareOp param.
Definition LogExp (param : Exp Tensor) : Exp Tensor :=
  ElementWiseUnaryOpExpression LogOp param.
Definition AbsExp (param : Exp Tensor) : Exp Tensor :=
  ElementWiseUnaryOpExpression AbsOp param.
Definition ReluActivateExp (param : Exp Tensor) : Exp Tensor :=
  ElementWiseUnaryOpExpression ReluOp param.

End Expression.

(** ** Read-only leaves *)

Section Leaves.
Context {Tensor : Type} `{Ext : Externals Tensor}.

(** The contract external leaves are held to: their two methods leave the
    memory as they found it. *)
Definition read_only_tensor (t : Tensor) : Prop :=
  (forall i idx m, after (tensor_Eval t i idx m) = m) /\
  (forall m, after (tensor_Shape t m) = m).

(** Every external leaf of the tree keeps that contract. *)
Fixpoint read_only_leaves (e : Exp Tensor) : Prop :=
  match e with
  | TScalarExp _ _ => True
  | TConstantExp _ _ => True
  | TTensor t => read_only_tensor t
  | TBinaryExp _ lhs rhs => read_only_leaves lhs /\ read_only_leaves rhs
  | TUnaryExp _ param => read_only_leaves param
  end.

(** Spec wording of binary composition: "combines two capability-conforming
    expressions and a chosen functor into a BinaryNode". *)
Definition BinaryNode_of_spec (TOp : BinaryOp) (left right : Exp Tensor)
  : Exp Tensor :=
  TBinaryExp TOp left right.

End Leaves.

(** ** A reference environment

    A concrete choice of the collaborators, used to run the nodes on
    examples. *)

(** Modelled from the spec: [BroadcastShape] is missing from the sources. The
    shapes are aligned from the trailing axis, the shorter one is padded with
    size-1 axes, an axis takes the larger size when the sizes match or either
    is 1, and any other pair of sizes is incompatible. *)
Fixpoint broadcast_trailing (a b : list Z) : option (list Z) :=
  match a, b with
  | [], _ => Some b
  | _, [] => Some a
  | x :: a', y :: b' =>
      match broadcast_trailing a' b' with
      | Some r =>
          if (x =? y) || (x =? 1) || (y =? 1) then Some (Z.max x y :: r)
          else None
      | None => None
      end
  end.

Definition BroadcastShape_spec (a b : Array_int) : option Array_int :=
  option_map (@rev Z) (broadcast_trailing (rev a) (rev b)).

(** Modelled from the spec: the array-backed leaf is defined outside the
    header. It refers to its dimension sizes and to its elements, stored
    row-major from [data] on; an axis of size 1 is read at position 0
    whatever the output coordinate says. *)
Record ArrayLeaf : Type := { dims : loc; data : loc }.

Definition storage_offset (shape : Array_int) (idx : TensorIndex) : Z :=
  let own := skipn (length idx - length shape) idx in
  fold_left (fun off dc => off * fst dc + (if fst dc =? 1 then 0 else snd dc))
            (combine shape own) 0.

Definition ArrayLeaf_Shape (t : ArrayLeaf) : M Array_int := load_array (dims t).

Definition ArrayLeaf_Eval (t : ArrayLeaf) (i : Z) (idx : TensorIndex) : M float :=
  shape <- load_array (dims t) ;;
  load Tfloat (data t + storage_offset shape idx).

(** Stand-ins for [Math::Exp] and [Math::Log] in the examples. They are not
    the mathematical functions: they agree with them at [exp 0 = 1] and
    [log 1 = 0] and give the IEEE results at zero, at the infinities and
    outside the domain of the logarithm. *)
Definition Math_Exp_ref (x : float) : float :=
  match x with
  | S754_zero _ => Float32.of_Z 1
  | S754_infinity true => Float32.zero
  | _ => x
  end.

Definition Math_Log_ref (x : float) : float :=
  match x with
  | S754_zero _ => S754_infinity true
  | S754_finite true _ _ => S754_nan
  | S754_infinity true => S754_nan
  | S754_finite false _ _ =>
      if SFeqb x (Float32.of_Z 1) then Float32.zero else x
  | _ => x
  end.

#[export] Instance reference_externals : Externals ArrayLeaf := {
  Math_Exp := Math_Exp_ref;
  Math_Log := Math_Log_ref;
  BroadcastShape := BroadcastShape_spec;
  tensor_Eval := ArrayLeaf_Eval;
  tensor_Shape := ArrayLeaf_Shape
}.

(** Modelled from the spec: the materialization driver lives with the tensor
    class. It asks for the shape once, and if there is one evaluates the root
    at every flat index with its row-major coordinate. *)
Definition coordinate (shape : Array_int) (i : Z) : TensorIndex :=
  snd (fold_right (fun d st => (fst st / d, (fst st mod d) :: snd st))
                  (i, []) shape).

Definition product (shape : Array_int) : Z := fold_right Z.mul 1 shape.

Section Driver.
Context {Tensor : Type} `{Ext : Externals Tensor}.

Fixpoint eval_each (e : Exp Tensor) (shape : Array_int) (flat : list Z)
  : M (list float) :=
  match flat with
  | [] => ret []
  | i :: rest =>
      v <- Eval e i (coordinate shape i) ;;
      vs <- eval_each e shape rest ;;
      ret (v :: vs)
  end.

Definition Materialize (e : Exp Tensor) : M (option (list float)) :=
  s <- Shape e ;;
  match s with
  | None => ret None
  | Some shape =>
      vs <- eval_each e shape (map Z.of_nat (seq 0 (Z.to_nat (product shape)))) ;;
      ret (Some vs)
  end.

End Driver.

(** A memory for the examples: the scalar variable 1 holds [2] at each type;
    array 10 is the shape [3]; the floats [1 2 3], [10 10 10] and [-2 0 3]
    are stored from 100, 200 and 300 on. *)
Definition example_floats (r : loc) : float :=
  Float32.of_Z
    (if r =? 1 then 2
     else if (100 <=? r) && (r <? 103) then r - 99
     else if (200 <=? r) && (r <? 203) then 10
     else if r =? 300 then -2
     else if r =? 302 then 3
     else 0).

Definition example_memory : Memory :=
  {| scalars := fun T =>
       match T with
       | Tfloat => example_floats
       | Tdouble => fun _ => Float32.of_Z 2
       | Tint => fun _ => 2
       end;
     arrays := fun r => if r =? 10 then [3] else [] |}.

Definition example_A : Exp ArrayLeaf := TTensor {| dims := 10; data := 100 |}.
Definition example_B : Exp ArrayLeaf := TTensor {| dims := 10; data := 200 |}.
Definition example_X : Exp ArrayLeaf := TTensor {| dims := 10; data := 300 |}.
Definition example_C : Exp ArrayLeaf := TScalarExp Tfloat 1.

(** ** Views of a tree used to state properties *)

Section Views.
Context {Tensor : Type} `{Ext : Externals Tensor}.

(** What [Eval] computes when nothing writes to the memory: every node reads
    the one memory [m]. *)
Fixpoint Eval_value (e : Exp Tensor) (i : Z) (idx : TensorIndex) (m : Memory)
  : float :=
  match e with
  | TScalarExp T val => to_float T (scalars m T val)
  | TConstantExp val _ => val
  | TTensor t => value (tensor_Eval t i idx m)
  | TBinaryExp TOp lhs rhs =>
      BinaryOp_Exec TOp (Eval_value lhs i idx m) (Eval_value rhs i idx m)
  | TUnaryExp TOp param => UnaryOp_Exec TOp (Eval_value param i idx m)
  end.

(** [Eval] and [Shape] with the other order C++ allows for the operands of a
    binary node: the right one first. *)
Fixpoint Eval_right_first (e : Exp Tensor) (i : Z) (broadcastIndex : TensorIndex)
  : M float :=
  match e with
  | TScalarExp T val => v <- load T val ;; ret (to_float T v)
  | TConstantExp val _ => ret val
  | TTensor t => tensor_Eval t i broadcastIndex
  | TBinaryExp TOp lhs rhs =>
      b <- Eval_right_first rhs i broadcastIndex ;;
      a <- Eval_right_first lhs i broadcastIndex ;;
      ret (BinaryOp_Exec TOp a b)
  | TUnaryExp TOp param =>
      a <- Eval_right_first param i broadcastIndex ;;
      ret (UnaryOp_Exec TOp a)
  end.

Fixpoint Shape_right_first (e : Exp Tensor) : M (option Array_int) :=
  match e with
  | TScalarExp _ _ => ret (Some [1])
  | TConstantExp _ shape => ret (Some shape)
  | TTensor t => s <- tensor_Shape t ;; ret (Some s)
  | TBinaryExp _ lhs rhs =>
      r <- Shape_right_first rhs ;;
      l <- Shape_right_first lhs ;;
      ret (match l, r with
           | Some sl, Some sr => BroadcastShape sl sr
           | _, _ => None
           end)
  | TUnaryExp _ param => Shape_right_first param
  end.

(** No external leaf in the tree. *)
Fixpoint tensor_free (e : Exp Tensor) : bool :=
  match e with
  | TScalarExp _ _ => true
  | TConstantExp _ _ => true
  | TTensor _ => false
  | TBinaryExp _ lhs rhs => tensor_free lhs && tensor_free rhs
  | TUnaryExp _ param => tensor_free param
  end.

(** The variables the scalar nodes of a tree refer to. *)
Fixpoint scalar_refs (e : Exp Tensor) : list (ctype * loc) :=
  match e with
  | TScalarExp T val => [(T, val)]
  | TConstantExp _ _ => []
  | TTensor _ => []
  | TBinaryExp _ lhs rhs => scalar_refs lhs ++ scalar_refs rhs
  | TUnaryExp _ param => scalar_refs param
  end.

(** The tree with its functors forgotten: unary nodes dropped, every binary
    node turned into an addition. *)
Fixpoint shape_skeleton (e : Exp Tensor) : Exp Tensor :=
  match e with
  | TBinaryExp _ lhs rhs => TBinaryExp AddOp (shape_skeleton lhs) (shape_skeleton rhs)
  | TUnaryExp _ param => shape_skeleton param
  | leaf => leaf
  end.

(** Some binary node of the tree has operands whose shapes the broadcaster
    rejects. *)
Fixpoint has_incompatible_node (e : Exp Tensor) (m : Memory) : Prop :=
  match e with
  | TBinaryExp _ lhs rhs =>
      has_incompatible_node lhs m \/ has_incompatible_node rhs m \/
      exists sl sr,
        value (Shape lhs m) = Some sl /\ value (Shape rhs m) = Some sr /\
        BroadcastShape sl sr = None
  | TUnaryExp _ param => has_incompatible_node param m
  | _ => False
  end.

End Views.

(** The integer a float stands for, when it is one. *)
Definition int_value (x : float) : option Z :=
  match x with
  | S754_zero _ => Some 0
  | S754_finite s m e =>
      let v := if s then Z.neg m else Z.pos m in
      if 0 <=? e then Some (v * 2 ^ e)
      else if v mod 2 ^ (- e) =? 0 then Some (v / 2 ^ (- e))
      else None
  | _ => None
  end.

(** Two more environments, to compare with the reference one: the first
    rejects every pair of shapes and reports every leaf as empty, the second
    has a different math library and all-zero leaves. *)
Definition rejecting_externals : Externals ArrayLeaf := {|
  Math_Exp := Math_Exp_ref;
  Math_Log := Math_Log_ref;
  BroadcastShape := fun _ _ => None;
  tensor_Eval := ArrayLeaf_Eval;
  tensor_Shape := fun _ => ret []
|}.

Definition zeroing_externals : Externals ArrayLeaf := {|
  Math_Exp := fun _ => Float32.nan;
  Math_Log := fun _ => Float32.nan;
  BroadcastShape := BroadcastShape_spec;
  tensor_Eval := fun _ _ _ => ret Float32.zero;
  tensor_Shape := ArrayLeaf_Shape
|}.

(** The nested example of the specification, [(a + b) * c - Exponent(d)]. *)
Definition example_nested : Exp ArrayLeaf :=
  operator_sub (operator_mul (operator_add example_A example_B) example_C)
               (ExponentExp (TConstantExp Float32.zero [3])).

(** Two constants whose shapes do not broadcast. *)
Definition example_mismatch : Exp ArrayLeaf :=
  operator_add (TConstantExp (Float32.of_Z 1) [2; 3])
               (TConstantExp (Float32.of_Z 1) [4; 5]).

(** [x] is the normal float that stands for the integer [n], or a zero when
    [n = 0]; then [n] is below [2^24] in magnitude. *)
Definition small_int_repr (x : float) (n : Z) : Prop :=
  match x with
  | S754_zero _ => n = 0
  | S754_finite s m e =>
      -23 <= e <= 0 /\ 2 ^ 23 <= Z.pos m < 2 ^ 24 /\
      (if s then Z.neg m else Z.pos m) = n * 2 ^ (- e)
  | _ => False
  end.

Definition small (n : Z) : bool := Z.abs n <? 2 ^ 24.

Definition checked (n : Z) : option Z := if small n then Some n else None.

(** The integer below [2^24] a well-formed binary32 value stands for. *)
Definition int_of_float (x : float) : option Z :=
  if valid_binary Float32.prec Float32.emax x then
    match int_value x with
    | Some n => checked n
    | None => None
    end
  else None.

Section IntegerView.
Context {Tensor : Type} `{Ext : Externals Tensor}.

(** A tree read over the integers: leaves must hold integers below [2^24],
    [+ - *] are the integer operations as long as their result stays below
    [2^24], the rectified linear unit is [max n 0]; anything else has no
    integer reading. *)
Fixpoint int_Eval (e : Exp Tensor) (i : Z) (idx : TensorIndex) (m : Memory)
  : option Z :=
  match e with
  | TBinaryExp TOp lhs rhs =>
      match int_Eval lhs i idx m, int_Eval rhs i idx m with
      | Some a, Some b =>
          match TOp with
          | AddOp => checked (a + b)
          | MinusOp => checked (a - b)
          | MulOp => checked (a * b)
          | DivOp => None
          end
      | _, _ => None
      end
  | TUnaryExp ReluOp param =>
      option_map (fun n => Z.max n 0) (int_Eval param i idx m)
  | TUnaryExp _ _ => None
  | leaf => int_of_float (Eval_value leaf i idx m)
  end.

End IntegerView.

(** ** Single-precision values *)

(** A well-formed binary32 value: zero, infinity, NaN, or a finite number
    whose mantissa and exponent are the ones the format prescribes. *)
Definition is_binary32 (x : float) : bool :=
  valid_binary Float32.prec Float32.emax x.

(** What a scalar variable must hold for its node to return a binary32
    value: a [float] variable holds one; an [int] or a [double] variable may
    hold anything. *)
Definition well_formed_scalar (T : ctype) : cval T -> Prop :=
  match T with
  | Tfloat => fun v => is_binary32 v = true
  | Tdouble => fun _ => True
  | Tint => fun _ => True
  end.

Section WellFormed.
Context {Tensor : Type} `{Ext : Externals Tensor}.

(** The data the leaves of a tree hand over are binary32 values. *)
Fixpoint well_formed_leaves (e : Exp Tensor) (i : Z) (idx : TensorIndex)
    (m : Memory) : Prop :=
  match e with
  | TScalarExp T val => well_formed_scalar T (scalars m T val)
  | TConstantExp val _ => is_binary32 val = true
  | TTensor t => is_binary32 (value (tensor_Eval t i idx m)) = true
  | TBinaryExp _ lhs rhs =>
      well_formed_leaves lhs i idx m /\ well_formed_leaves rhs i idx m
  | TUnaryExp _ param => well_formed_leaves param i idx m
  end.

(** [Math::Exp] and [Math::Log] return binary32 values. *)
Definition math_library_binary32 : Prop :=
  forall x, is_binary32 x = true ->
  is_binary32 (Math_Exp x) = true /\ is_binary32 (Math_Log x) = true.

End WellFormed.

(** * Properties *)

(** ** Running computations *)

Lemma bind_run {A B} (c : M A) (k : A -> M B) (m : Memory) :
  bind c k m = k (value (c m)) (after (c m)).
Proof. unfold bind, value, after. destruct (c m); reflexivity. Qed.

Lemma run_eta {A} (r : A * Memory) : r = (value r, after r).
Proof. destruct r; reflexivity. Qed.

Lemma update_scalar_same (T : ctype) (r : loc) (v : cval T) (m : Memory) :
  scalars (update_scalar T r v m) T r = v.
Proof. destruct T; simpl; rewrite Z.eqb_refl; reflexivity. Qed.

Lemma update_array_same (r : loc) (a : Array_int) (m : Memory) :
  arrays (update_array r a m) r = a.
Proof. simpl. rewrite Z.eqb_refl. reflexivity. Qed.

Lemma ArrayLeaf_read_only (t : ArrayLeaf) : read_only_tensor t.
Proof. split; intros; reflexivity. Qed.

Section Properties.
Context {Tensor : Type} `{Ext : Externals Tensor}.

(** ** Evaluation leaves the memory alone *)

Lemma Eval_after (e : Exp Tensor) :
  read_only_leaves e -> forall i idx m, after (Eval e i idx m) = m.
Proof.
  induction e as [T r | v sh | t | op l IHl r IHr | op p IHp];
    simpl; intros RO i idx m.
  - reflexivity.
  - reflexivity.
  - apply RO.
  - destruct RO as [ROl ROr].
    rewrite bind_run, bind_run, IHl by assumption.
    apply IHr; assumption.
  - rewrite bind_run. apply IHp; assumption.
Qed.

Lemma Shape_after (e : Exp Tensor) :
  read_only_leaves e -> forall m, after (Shape e m) = m.
Proof.
  induction e as [T r | v sh | t | op l IHl r IHr | op p IHp];
    simpl; intros RO m.
  - reflexivity.
  - reflexivity.
  - rewrite bind_run. apply RO.
  - destruct RO as [ROl ROr].
    rewrite bind_run, bind_run, IHl by assumption.
    apply IHr; assumption.
  - apply IHp; assumption.
Qed.

Lemma Eval_run (e : Exp Tensor) i idx m :
  read_only_leaves e -> Eval e i idx m = (value (Eval e i idx m), m).
Proof.
  intros RO. rewrite (run_eta (Eval e i idx m)) at 1.
  rewrite Eval_after by assumption. reflexivity.
Qed.

Lemma Shape_run (e : Exp Tensor) m :
  read_only_leaves e -> Shape e m = (value (Shape e m), m).
Proof.
  intros RO. rewrite (run_eta (Shape e m)) at 1.
  rewrite Shape_after by assumption. reflexivity.
Qed.

Lemma TBinaryExp_Eval_value TOp (lhs rhs : Exp Tensor) i idx m :
  read_only_leaves lhs ->
  value (Eval (TBinaryExp TOp lhs rhs) i idx m)
  = BinaryOp_Exec TOp (value (Eval lhs i idx m)) (value (Eval rhs i idx m)).
Proof.
  intros RO. simpl. rewrite bind_run, bind_run, Eval_after by assumption.
  reflexivity.
Qed.

(** ** Binary nodes *)

(** C1. A binary node evaluates to its functor applied to what the two
    operands evaluate to at the same flat index and the same coordinate; so
    [(A + B).Eval] is the float sum of [A.Eval] and [B.Eval], and likewise
    for [-], [*] and [/]. The external leaves are read-only. *)
Theorem TBinaryExp_Eval_applies_functor
    (TOp : BinaryOp) (lhs rhs : Exp Tensor) (i : Z) (idx : TensorIndex)
    (m : Memory) :
  read_only_leaves lhs -> read_only_leaves rhs ->
  let a := value (Eval lhs i idx m) in
  let b := value (Eval rhs i idx m) in
  Eval (TBinaryExp TOp lhs rhs) i idx m = (BinaryOp_Exec TOp a b, m) /\
  value (Eval (operator_add lhs rhs) i idx m) = Float32.add a b /\
  value (Eval (operator_sub lhs rhs) i idx m) = Float32.sub a b /\
  value (Eval (operator_mul lhs rhs) i idx m) = Float32.mul a b /\
  value (Eval (operator_div lhs rhs) i idx m) = Float32.div a b.
Proof.
  intros ROl ROr a b. split.
  - rewrite Eval_run by (split; assumption).
    rewrite TBinaryExp_Eval_value by assumption. reflexivity.
  - unfold operator_add, operator_sub, operator_mul, operator_div,
      ElementWiseBinaryOpExpression, Self.
    repeat split; rewrite TBinaryExp_Eval_value by assumption; reflexivity.
Qed.

(** C2. The shape of a binary node is [BroadcastShape] of its operands'
    shapes, and it is worked out afresh by every call: when the caller changes
    the memory between two calls, each call returns the broadcast of the
    shapes the operands have at that moment. *)
Theorem TBinaryExp_Shape_is_broadcast
    (TOp : BinaryOp) (lhs rhs : Exp Tensor) (k : M unit) (m : Memory)
    (sl sr sl' sr' : Array_int) :
  read_only_leaves lhs -> read_only_leaves rhs ->
  value (Shape lhs m) = Some sl -> value (Shape rhs m) = Some sr ->
  value (Shape lhs (after (k m))) = Some sl' ->
  value (Shape rhs (after (k m))) = Some sr' ->
  Shape (TBinaryExp TOp lhs rhs) m = (BroadcastShape sl sr, m) /\
  (s1 <- Shape (TBinaryExp TOp lhs rhs) ;;
   _ <- k ;;
   s2 <- Shape (TBinaryExp TOp lhs rhs) ;;
   ret (s1, s2)) m
  = ((BroadcastShape sl sr, BroadcastShape sl' sr'), after (k m)).
Proof.
  intros ROl ROr Hl Hr Hl' Hr'.
  assert (Once : forall m0 a b,
             value (Shape lhs m0) = Some a -> value (Shape rhs m0) = Some b ->
             Shape (TBinaryExp TOp lhs rhs) m0 = (BroadcastShape a b, m0)).
  { intros m0 a b Ha Hb. simpl.
    rewrite bind_run, Shape_after by assumption.
    rewrite bind_run, Shape_after by assumption.
    rewrite Ha, Hb. reflexivity. }
  split.
  - apply Once; assumption.
  - rewrite bind_run, (Once m sl sr) by assumption.
    unfold value at 1, after at 1; simpl fst; simpl snd.
    rewrite bind_run, bind_run.
    rewrite (Once (after (k m)) sl' sr') by assumption.
    reflexivity.
Qed.

(** ** Leaves *)

(** C3. [TScalarExp::Eval] returns the value behind its reference (as a
    float) and its shape is [[1]]; [TConstantExp::Eval] returns the stored
    value and its shape is the stored one. Neither can fail, neither touches
    the memory, and the results are the same at every flat index and
    coordinate. *)
Theorem leaf_nodes_ignore_indices
    (T : ctype) (r : loc) (val : float) (shape : Array_int)
    (i i' : Z) (idx idx' : TensorIndex) (m : Memory) :
  Eval (Tensor := Tensor) (TScalarExp T r) i idx m
    = (to_float T (scalars m T r), m) /\
  Eval (Tensor := Tensor) (TScalarExp Tfloat r) i idx m
    = (scalars m Tfloat r, m) /\
  Shape (Tensor := Tensor) (TScalarExp T r) m = (Some [1], m) /\
  Eval (Tensor := Tensor) (TConstantExp val shape) i idx m = (val, m) /\
  Shape (Tensor := Tensor) (TConstantExp val shape) m = (Some shape, m) /\
  Eval (Tensor := Tensor) (TScalarExp T r) i idx
    = Eval (TScalarExp T r) i' idx' /\
  Eval (Tensor := Tensor) (TConstantExp val shape) i idx
    = Eval (TConstantExp val shape) i' idx'.
Proof. repeat split. Qed.

(** ** Unary nodes *)

(** C4. A unary node has the shape of its operand, and evaluates to its
    functor applied to what the operand evaluates to at the same flat index
    and coordinate. *)
Theorem TUnaryExp_Shape_and_Eval
    (TOp : UnaryOp) (param : Exp Tensor) (i : Z) (idx : TensorIndex)
    (m : Memory) :
  Shape (TUnaryExp TOp param) m = Shape param m /\
  Eval (TUnaryExp TOp param) i idx m
    = (UnaryOp_Exec TOp (value (Eval param i idx m)),
       after (Eval param i idx m)).
Proof.
  split.
  - reflexivity.
  - simpl. rewrite bind_run. reflexivity.
Qed.

End Properties.

(** ** Operation functors *)

(** C5. [ReluOp::Exec] returns its argument when it is strictly greater than
    zero and [0] otherwise; the array [-2 0 3] goes to [0 0 3] through the
    rectified linear unit, to [4 0 9] through the square and to [2 0 3]
    through the absolute value, element by element and when materialized
    from a unary node over the array. *)
Theorem ReluOp_Exec_positive_part (x : float) :
  ReluOp_Exec x = (if Float32.ltb Float32.zero x then x else Float32.zero) /\
  Float32.ltb Float32.zero x = strictly_positive x /\
  ReluOp_Exec x = (if strictly_positive x then x else Float32.zero) /\
  map ReluOp_Exec (map Float32.of_Z [-2; 0; 3]) = map Float32.of_Z [0; 0; 3] /\
  map SquareOp_Exec (map Float32.of_Z [-2; 0; 3]) = map Float32.of_Z [4; 0; 9] /\
  map AbsOp_Exec (map Float32.of_Z [-2; 0; 3]) = map Float32.of_Z [2; 0; 3] /\
  value (Materialize (ReluActivateExp example_X) example_memory)
    = Some (map Float32.of_Z [0; 0; 3]) /\
  value (Materialize (SquareExp example_X) example_memory)
    = Some (map Float32.of_Z [4; 0; 9]) /\
  value (Materialize (AbsExp example_X) example_memory)
    = Some (map Float32.of_Z [2; 0; 3]).
Proof.
  assert (P : Float32.ltb Float32.zero x = strictly_positive x).
  { destruct x as [s | s | | s mx ex]; try destruct s; reflexivity. }
  split; [reflexivity | split; [exact P |]].
  split; [unfold ReluOp_Exec; rewrite P; reflexivity |].
  repeat split; vm_compute; reflexivity.
Qed.

(** C6. Each of [+ - * /] is [ElementWiseBinaryOpExpression] at its functor,
    which in turn builds the one binary node over the two operands
    themselves. *)
Theorem operators_wrap_ElementWiseBinaryOpExpression
    {Tensor : Type} (lhs rhs : Exp Tensor) (TOp : BinaryOp) :
  operator_add lhs rhs = ElementWiseBinaryOpExpression AddOp lhs rhs /\
  operator_sub lhs rhs = ElementWiseBinaryOpExpression MinusOp lhs rhs /\
  operator_mul lhs rhs = ElementWiseBinaryOpExpression MulOp lhs rhs /\
  operator_div lhs rhs = ElementWiseBinaryOpExpression DivOp lhs rhs /\
  ElementWiseBinaryOpExpression TOp lhs rhs = BinaryNode_of_spec TOp lhs rhs /\
  operator_add lhs rhs = BinaryNode_of_spec AddOp lhs rhs /\
  operator_sub lhs rhs = BinaryNode_of_spec MinusOp lhs rhs /\
  operator_mul lhs rhs = BinaryNode_of_spec MulOp lhs rhs /\
  operator_div lhs rhs = BinaryNode_of_spec DivOp lhs rhs.
Proof. repeat split. Qed.

(** C7. Functors are total and have no failure result. Dividing by a zero
    gives an infinity or NaN, never an error; [SqrtOp] on a negative input
    gives NaN; [LogOp] returns whatever [Math::Log] returns, without checking
    the domain. *)
Theorem functors_have_no_error_case
    {Tensor : Type} `{Ext : Externals Tensor} (a b x : float) :
  Float32.is_zero b = true ->
  strictly_negative x = true ->
  (DivOp_Exec a b
     = if Float32.is_nan a || Float32.is_zero a then Float32.nan
       else S754_infinity (xorb (Float32.sign a) (Float32.sign b))) /\
  Float32.is_infinity (DivOp_Exec a b) || Float32.is_nan (DivOp_Exec a b)
    = true /\
  SqrtOp_Exec x = Float32.nan /\
  SqrtOp_Exec b = b /\
  LogOp_Exec x = Math_Log x /\
  LogOp_Exec b = Math_Log b /\
  (forall TOp u v, exists r : float, BinaryOp_Exec TOp u v = r) /\
  (forall TOp u, exists r : float, UnaryOp_Exec TOp u = r).
Proof.
  intros Hb Hx.
  destruct b as [sb | sb | | sb mb eb]; try discriminate Hb.
  destruct x as [sx | sx | | sx mx ex]; try discriminate Hx;
    destruct sx; try discriminate Hx.
  all: repeat split; try (destruct a as [sa | sa | | sa ma ea]; reflexivity).
  all: intros; eexists; reflexivity.
Qed.

(** ** Purity *)

(** C8. Evaluating a tree, or asking for its shape, leaves the memory as it
    was, and doing either twice in a row gives the same result twice. The
    external leaves are read-only. *)
Theorem Eval_deterministic_and_pure
    {Tensor : Type} `{Ext : Externals Tensor}
    (e : Exp Tensor) (i : Z) (idx : TensorIndex) (m : Memory) :
  read_only_leaves e ->
  after (Eval e i idx m) = m /\
  after (Shape e m) = m /\
  (a <- Eval e i idx ;; b <- Eval e i idx ;; ret (a, b)) m
    = ((value (Eval e i idx m), value (Eval e i idx m)), m) /\
  (s <- Shape e ;; t <- Shape e ;; ret (s, t)) m
    = ((value (Shape e m), value (Shape e m)), m) /\
  (s <- Shape e ;; a <- Eval e i idx ;; t <- Shape e ;; b <- Eval e i idx ;;
   ret (s, a, t, b)) m
    = ((value (Shape e m), value (Eval e i idx m),
        value (Shape e m), value (Eval e i idx m)), m).
Proof.
  intros RO.
  split; [apply Eval_after; assumption |].
  split; [apply Shape_after; assumption |].
  repeat split.
  - rewrite !bind_run, !Eval_after by assumption. reflexivity.
  - rewrite !bind_run, !Shape_after by assumption. reflexivity.
  - rewrite bind_run, Shape_after by assumption.
    rewrite bind_run, Eval_after by assumption.
    rewrite bind_run, Shape_after by assumption.
    rewrite bind_run, Eval_after by assumption.
    reflexivity.
Qed.

(** C9. A constant node built from the caller's float [x] and shape array
    [s] keeps copies: whatever the caller does to the memory afterwards, its
    [Eval] and [Shape] return what [x] and [s] held at construction. A scalar
    node over [x] follows the variable instead. *)
Theorem TConstantExp_keeps_copies
    {Tensor : Type} `{Ext : Externals Tensor}
    (x s : loc) (k : M unit) (i : Z) (idx : TensorIndex) (m : Memory)
    (v' : float) (a' : Array_int) :
  (v <- load Tfloat x ;;
   c <- TConstantExp_ctor (Tensor := Tensor) v s ;;
   sc <- Scalar Tfloat x ;;
   _ <- k ;;
   r1 <- Eval c i idx ;;
   r2 <- Shape c ;;
   r3 <- Eval sc i idx ;;
   ret (r1, r2, r3)) m
  = ((scalars m Tfloat x, Some (arrays m s), scalars (after (k m)) Tfloat x),
     after (k m)) /\
  (v <- load Tfloat x ;;
   c <- TConstantExp_ctor (Tensor := Tensor) v s ;;
   sc <- Scalar Tfloat x ;;
   _ <- store Tfloat x v' ;;
   _ <- store_array s a' ;;
   r1 <- Eval c i idx ;;
   r2 <- Shape c ;;
   r3 <- Eval sc i idx ;;
   ret (r1, r2, r3)) m
  = ((scalars m Tfloat x, Some (arrays m s), v'),
     update_array s a' (update_scalar Tfloat x v' m)) /\
  (v <- load Tfloat x ;;
   c <- TConstantExp_ctor_pack (Tensor := Tensor) v a' ;;
   _ <- k ;;
   r1 <- Eval c i idx ;;
   r2 <- Shape c ;;
   ret (r1, r2)) m
  = ((scalars m Tfloat x, Some a'), after (k m)).
Proof.
  split; [| split].
  - unfold TConstantExp_ctor, Scalar, TScalarExp_ctor.
    rewrite !bind_run. cbn -[bind]. rewrite !bind_run. reflexivity.
  - unfold TConstantExp_ctor, Scalar, TScalarExp_ctor, bind, load, load_array,
      store, store_array, ret. cbn -[update_scalar update_array].
    change (scalars (update_array s a' (update_scalar Tfloat x v' m)) Tfloat x)
      with (scalars (update_scalar Tfloat x v' m) Tfloat x).
    rewrite update_scalar_same. reflexivity.
  - unfold TConstantExp_ctor_pack.
    rewrite !bind_run. reflexivity.
Qed.

(** ** The theorems at work *)

Lemma TBinaryExp_Eval_applies_functor_witness :
  read_only_leaves example_A /\ read_only_leaves example_B /\
  Eval (TBinaryExp AddOp example_A example_B) 1 [1] example_memory
    = (Float32.of_Z 12, example_memory) /\
  value (Eval (operator_div example_A example_B) 2 [2] example_memory)
    = Float32.div (Float32.of_Z 3) (Float32.of_Z 10).
Proof.
  assert (HA : read_only_leaves example_A) by apply ArrayLeaf_read_only.
  assert (HB : read_only_leaves example_B) by apply ArrayLeaf_read_only.
  split; [exact HA | split; [exact HB | split]].
  - exact (proj1 (TBinaryExp_Eval_applies_functor
                    AddOp example_A example_B 1 [1] example_memory HA HB)).
  - exact (proj2 (proj2 (proj2 (proj2
            (TBinaryExp_Eval_applies_functor
               AddOp example_A example_B 2 [2] example_memory HA HB))))).
Defined.

Lemma TBinaryExp_Shape_is_broadcast_witness :
  let lhs := example_A in
  let rhs : Exp ArrayLeaf := TConstantExp (Float32.of_Z 5) [2; 1] in
  let k := store_array 10 [4] in
  Shape (TBinaryExp MulOp lhs rhs) example_memory
    = (Some [2; 3], example_memory) /\
  value ((s1 <- Shape (TBinaryExp MulOp lhs rhs) ;;
          _ <- k ;;
          s2 <- Shape (TBinaryExp MulOp lhs rhs) ;;
          ret (s1, s2)) example_memory)
    = (Some [2; 3], Some [2; 4]).
Proof.
  intros lhs rhs k.
  pose proof (TBinaryExp_Shape_is_broadcast
                MulOp lhs rhs k example_memory [3] [2; 1] [4] [2; 1]
                (ArrayLeaf_read_only _) I
                eq_refl eq_refl eq_refl eq_refl) as [H1 H2].
  split.
  - exact H1.
  - rewrite H2. reflexivity.
Defined.

Lemma functors_have_no_error_case_witness :
  DivOp_Exec (Float32.of_Z 1) Float32.zero = S754_infinity false /\
  DivOp_Exec Float32.zero (S754_zero true) = Float32.nan /\
  SqrtOp_Exec (Float32.of_Z (-4)) = Float32.nan /\
  LogOp_Exec (Float32.of_Z (-4)) = Float32.nan.
Proof.
  pose proof (functors_have_no_error_case
                (Ext := reference_externals)
                (Float32.of_Z 1) Float32.zero (Float32.of_Z (-4))
                eq_refl eq_refl) as [H1 [_ [H3 [_ [H5 _]]]]].
  pose proof (functors_have_no_error_case
                (Ext := reference_externals)
                Float32.zero (S754_zero true) (Float32.of_Z (-4))
                eq_refl eq_refl) as [H1' _].
  split; [exact H1 | split; [exact H1' | split; [exact H3 | exact H5]]].
Defined.

Lemma Eval_deterministic_and_pure_witness :
  let e := operator_mul (operator_add example_A example_B) example_C in
  read_only_leaves e /\
  after (Eval e 2 [2] example_memory) = example_memory /\
  (a <- Eval e 2 [2] ;; b <- Eval e 2 [2] ;; ret (a, b)) example_memory
    = ((Float32.of_Z 26, Float32.of_Z 26), example_memory).
Proof.
  intros e.
  assert (RO : read_only_leaves e).
  { repeat split. }
  pose proof (Eval_deterministic_and_pure e 2 [2] example_memory RO)
    as [H1 [_ [H3 _]]].
  split; [exact RO | split; [exact H1 | exact H3]].
Defined.

(** ** Further examples from the specification *)

(** [(A + B) * C] with [A = 1 2 3], [B = 10 10 10] and the scalar [C = 2]. *)
Example chained_expression :
  value (Materialize (operator_mul (operator_add example_A example_B) example_C)
                     example_memory)
  = Some (map Float32.of_Z [22; 24; 26]).
Proof. vm_compute. reflexivity. Qed.

(** A [[1]]-shaped scalar against a [[3]]-shaped array gives shape [[3]]. *)
Example scalar_broadcasts :
  value (Shape (operator_add example_C example_A) example_memory) = Some [3].
Proof. reflexivity. Qed.

Example shape_mismatch :
  BroadcastShape_spec [2; 3] [4; 5] = None /\
  value (Materialize
           (operator_add (TConstantExp (Float32.of_Z 1) [2; 3])
                         (TConstantExp (Tensor := ArrayLeaf) (Float32.of_Z 1) [4; 5]))
           example_memory) = None.
Proof. split; reflexivity. Qed.

(** An [int] scalar is converted before the functor sees it: [16777217] has
    no float of its own, and [16777216 + 1] computed on floats stays put. *)
Example int_scalar_is_rounded :
  to_float Tint 16777217 = Float32.of_Z 16777216 /\
  AddOp_Exec (to_float Tint 16777216) (to_float Tint 1) = to_float Tint 16777216.
Proof. split; vm_compute; reflexivity. Qed.

(** A scalar node follows its variable; a constant node does not. *)
Example scalar_follows_variable :
  let m' := update_scalar Tfloat 1 (Float32.of_Z 7) example_memory in
  value (Eval example_C 0 [0] example_memory) = Float32.of_Z 2 /\
  value (Eval example_C 0 [0] m') = Float32.of_Z 7.
Proof. split; vm_compute; reflexivity. Qed.

(** * Further properties of the header *)

Section Trees.
Context {Tensor : Type} `{Ext : Externals Tensor}.

Lemma Eval_run_value
    (e : Exp Tensor) (i : Z) (idx : TensorIndex) (m : Memory) :
  read_only_leaves e ->
  Eval e i idx m = (Eval_value e i idx m, m).
Proof.
  revert m.
  induction e as [T r | v sh | t | op l IHl r IHr | op p IHp];
    simpl; intros m RO.
  - reflexivity.
  - reflexivity.
  - rewrite (run_eta (tensor_Eval t i idx m)) at 1.
    destruct RO as [RE _]. rewrite RE. reflexivity.
  - destruct RO as [ROl ROr].
    unfold bind. rewrite IHl, IHr by assumption. reflexivity.
  - unfold bind. rewrite IHp by assumption. reflexivity.
Qed.

(** X1. Over read-only leaves, evaluating a tree of any depth returns the
    functors folded over the leaves' values, every leaf being evaluated at the
    same flat index, coordinate and memory, and leaves the memory as it
    was. *)
Theorem Eval_is_Eval_value
    (e : Exp Tensor) (i : Z) (idx : TensorIndex) (m : Memory) :
  read_only_leaves e ->
  Eval e i idx m = (Eval_value e i idx m, m).
Proof. apply Eval_run_value. Qed.

(** X2. Over read-only leaves, the order in which a binary node evaluates
    its two operands makes no difference, for [Eval] and for [Shape]. *)
Theorem operand_order_is_irrelevant
    (e : Exp Tensor) (i : Z) (idx : TensorIndex) (m : Memory) :
  read_only_leaves e ->
  Eval_right_first e i idx m = Eval e i idx m /\
  Shape_right_first e m = Shape e m.
Proof.
  intros RO. split.
  - rewrite Eval_run_value by assumption.
    revert m.
    induction e as [T r | v sh | t | op l IHl r IHr | op p IHp];
      simpl; intros m.
    + reflexivity.
    + reflexivity.
    + rewrite (run_eta (tensor_Eval t i idx m)) at 1.
      destruct RO as [RE _]. rewrite RE. reflexivity.
    + destruct RO as [ROl ROr].
      unfold bind. rewrite IHr, IHl by assumption. reflexivity.
    + unfold bind. rewrite IHp by assumption. reflexivity.
  - revert m.
    induction e as [T r | v sh | t | op l IHl r IHr | op p IHp];
      simpl; intros m.
    + reflexivity.
    + reflexivity.
    + reflexivity.
    + destruct RO as [ROl ROr].
      rewrite bind_run, IHr by assumption.
      rewrite bind_run, IHl by assumption.
      rewrite !bind_run.
      rewrite !(Shape_after r), !(Shape_after l) by assumption.
      reflexivity.
    + apply IHp; assumption.
Qed.

End Trees.

Lemma update_scalar_other (T T' : ctype) (r r' : loc) (v : cval T) (m : Memory) :
  (T, r) <> (T', r') ->
  scalars (update_scalar T r v m) T' r' = scalars m T' r'.
Proof.
  intros N. simpl. destruct (ctype_eq_dec T T') as [E | E]; [| reflexivity].
  destruct (Z.eqb_spec r r') as [R | R]; [| reflexivity].
  subst. contradiction N. reflexivity.
Qed.

Section Footprint.
Context {Tensor : Type} `{Ext : Externals Tensor}.

Lemma tensor_free_read_only (e : Exp Tensor) :
  tensor_free e = true -> read_only_leaves e.
Proof.
  induction e as [T r | v sh | t | op l IHl r IHr | op p IHp];
    simpl; intros F.
  - exact I.
  - exact I.
  - discriminate F.
  - apply andb_prop in F. destruct F as [Fl Fr]. split; auto.
  - auto.
Qed.

Lemma Shape_tensor_free (e : Exp Tensor) (m m' : Memory) :
  tensor_free e = true -> value (Shape e m) = value (Shape e m').
Proof.
  induction e as [T r | v sh | t | op l IHl r IHr | op p IHp];
    simpl; intros F.
  - reflexivity.
  - reflexivity.
  - discriminate F.
  - apply andb_prop in F. destruct F as [Fl Fr].
    rewrite !bind_run.
    rewrite !(Shape_after l) by (apply tensor_free_read_only; assumption).
    unfold ret, value at 1 4. simpl fst.
    rewrite (IHl Fl), (IHr Fr). reflexivity.
  - auto.
Qed.

(** X3. A tree without external leaves, however deep, evaluates to the same
    result at every flat index and coordinate. *)
Theorem tensor_free_Eval_ignores_position
    (e : Exp Tensor) (i i' : Z) (idx idx' : TensorIndex) (m : Memory) :
  tensor_free e = true ->
  Eval e i idx m = Eval e i' idx' m.
Proof.
  intros F.
  rewrite !Eval_run_value by (apply tensor_free_read_only; assumption).
  f_equal.
  induction e as [T r | v sh | t | op l IHl r IHr | op p IHp];
    simpl in *.
  - reflexivity.
  - reflexivity.
  - discriminate F.
  - apply andb_prop in F. destruct F as [Fl Fr].
    rewrite (IHl Fl), (IHr Fr). reflexivity.
  - rewrite (IHp F). reflexivity.
Qed.

(** X4. A tree without external leaves reads nothing but the variables its
    scalar nodes refer to: in two memories that agree on those, [Eval]
    returns the same value; and its [Shape] is the same in any two
    memories. *)
Theorem tensor_free_Eval_footprint
    (e : Exp Tensor) (i : Z) (idx : TensorIndex) (m m' : Memory) :
  tensor_free e = true ->
  (forall T r, In (T, r) (scalar_refs e) -> scalars m T r = scalars m' T r) ->
  value (Eval e i idx m) = value (Eval e i idx m') /\
  value (Shape e m) = value (Shape e m').
Proof.
  intros F A. split; [| apply Shape_tensor_free; assumption].
  rewrite !Eval_run_value by (apply tensor_free_read_only; assumption).
  unfold value; simpl fst.
  induction e as [T r | v sh | t | op l IHl r IHr | op p IHp];
    simpl in *.
  - rewrite (A T r) by (left; reflexivity). reflexivity.
  - reflexivity.
  - discriminate F.
  - apply andb_prop in F. destruct F as [Fl Fr].
    rewrite (IHl Fl), (IHr Fr); try reflexivity;
      intros T0 r0 H0; apply A; apply in_or_app; auto.
  - rewrite (IHp F A). reflexivity.
Qed.

(** X5. [Shape] does not look at functors: it sees through unary nodes and
    treats every binary node alike, so a tree and its skeleton have the same
    shape, with the same effect on the memory. *)
Theorem Shape_ignores_functors (e : Exp Tensor) (m : Memory) :
  Shape e m = Shape (shape_skeleton e) m.
Proof.
  revert m.
  induction e as [T r | v sh | t | op l IHl r IHr | op p IHp];
    simpl; intros m; try reflexivity.
  - unfold bind. rewrite IHl.
    destruct (Shape (shape_skeleton l) m) as [sl m1].
    rewrite IHr. reflexivity.
  - apply IHp.
Qed.

(** X6. Over read-only leaves, [Shape] fails exactly when the broadcaster
    rejects the operand shapes of some binary node of the tree: leaves and
    unary nodes never fail by themselves, and a failure below always reaches
    the root. *)
Theorem Shape_fails_iff_incompatible_node (e : Exp Tensor) (m : Memory) :
  read_only_leaves e ->
  value (Shape e m) = None <-> has_incompatible_node e m.
Proof.
  induction e as [T r | v sh | t | op l IHl r IHr | op p IHp];
    simpl; intros RO.
  - split; [discriminate | contradiction].
  - split; [discriminate | contradiction].
  - rewrite bind_run. split; [discriminate | contradiction].
  - destruct RO as [ROl ROr].
    specialize (IHl ROl). specialize (IHr ROr).
    rewrite !bind_run, !(Shape_after l) by assumption.
    unfold ret, value at 1. simpl fst.
    destruct (value (Shape l m)) as [sl |] eqn:El;
      destruct (value (Shape r m)) as [sr |] eqn:Er.
    + split.
      * intros B. right. right. exists sl, sr. auto.
      * intros [H | [H | [a [b [Ha [Hb B]]]]]].
        -- apply IHl in H. discriminate H.
        -- apply IHr in H. discriminate H.
        -- congruence.
    + split; [intros _ | reflexivity]. right. left. apply IHr. reflexivity.
    + split; [intros _ | reflexivity]. left. apply IHl. reflexivity.
    + split; [intros _ | reflexivity]. left. apply IHl. reflexivity.
  - apply IHp; assumption.
Qed.

End Footprint.

(** X7. [Eval] never consults the broadcaster or a leaf's shape: two
    environments that agree on the math library and on the leaves' elements
    give the same [Eval], so a tree whose shapes are incompatible still
    evaluates. *)
Theorem Eval_ignores_shapes
    {Tensor : Type} (E1 E2 : Externals Tensor)
    (e : Exp Tensor) (i : Z) (idx : TensorIndex) (m : Memory) :
  (forall x, @Math_Exp _ E1 x = @Math_Exp _ E2 x) ->
  (forall x, @Math_Log _ E1 x = @Math_Log _ E2 x) ->
  (forall t j c m0, @tensor_Eval _ E1 t j c m0 = @tensor_Eval _ E2 t j c m0) ->
  @Eval _ E1 e i idx m = @Eval _ E2 e i idx m.
Proof.
  intros HE HL HT. revert m.
  induction e as [T r | v sh | t | op l IHl r IHr | op p IHp];
    simpl; intros m; try reflexivity.
  - apply HT.
  - unfold bind. rewrite IHl.
    destruct (@Eval _ E2 l i idx m) as [a m1].
    rewrite IHr. reflexivity.
  - unfold bind. rewrite IHp.
    destruct (@Eval _ E2 p i idx m) as [a m1].
    destruct op; simpl; unfold ExpOp_Exec, LogOp_Exec;
      rewrite ?HE, ?HL; reflexivity.
Qed.

(** X8. [Shape] never consults the math library or a leaf's elements: two
    environments that agree on the broadcaster and on the leaves' shapes give
    the same [Shape]. *)
Theorem Shape_ignores_values
    {Tensor : Type} (E1 E2 : Externals Tensor) (e : Exp Tensor) (m : Memory) :
  (forall a b, @BroadcastShape _ E1 a b = @BroadcastShape _ E2 a b) ->
  (forall t m0, @tensor_Shape _ E1 t m0 = @tensor_Shape _ E2 t m0) ->
  @Shape _ E1 e m = @Shape _ E2 e m.
Proof.
  intros HB HS. revert m.
  induction e as [T r | v sh | t | op l IHl r IHr | op p IHp];
    simpl; intros m; try reflexivity.
  - unfold bind. rewrite HS. reflexivity.
  - unfold bind. rewrite IHl.
    destruct (@Shape _ E2 l m) as [a m1].
    rewrite IHr.
    destruct (@Shape _ E2 r m1) as [b m2].
    destruct a, b; try reflexivity. rewrite HB. reflexivity.
  - apply IHp.
Qed.

(** ** Functors on floats *)

(** X9. [ReluOp::Exec] never returns NaN, a negative number or a negative
    zero (NaN and [-0] both go to [+0]); it returns its argument or [+0], and
    applying it twice is applying it once, on floats and on trees. *)
Theorem ReluOp_Exec_range_and_idempotence
    {Tensor : Type} `{Ext : Externals Tensor}
    (x : float) (e : Exp Tensor) (i : Z) (idx : TensorIndex) (m : Memory) :
  Float32.is_nan (ReluOp_Exec x) = false /\
  Float32.sign (ReluOp_Exec x) = false /\
  strictly_negative (ReluOp_Exec x) = false /\
  ReluOp_Exec Float32.nan = Float32.zero /\
  ReluOp_Exec (S754_zero true) = Float32.zero /\
  (ReluOp_Exec x = x \/ ReluOp_Exec x = Float32.zero) /\
  ReluOp_Exec (ReluOp_Exec x) = ReluOp_Exec x /\
  Eval (ReluActivateExp (ReluActivateExp e)) i idx m
    = Eval (ReluActivateExp e) i idx m.
Proof.
  assert (Idem : forall y, ReluOp_Exec (ReluOp_Exec y) = ReluOp_Exec y).
  { intros y. destruct y as [s | s | | s my ey]; try destruct s; reflexivity. }
  repeat split.
  - destruct x as [s | s | | s mx ex]; try destruct s; reflexivity.
  - destruct x as [s | s | | s mx ex]; try destruct s; reflexivity.
  - destruct x as [s | s | | s mx ex]; try destruct s; reflexivity.
  - destruct x as [s | s | | s mx ex]; try destruct s; auto.
  - apply Idem.
  - unfold ReluActivateExp, ElementWiseUnaryOpExpression, Self. simpl.
    unfold bind. destruct (Eval e i idx m) as [a m1].
    unfold ret. rewrite Idem. reflexivity.
Qed.

Lemma SFadd_comm (prec emax : Z) (x y : spec_float) :
  SFadd prec emax x y = SFadd prec emax y x.
Proof.
  destruct x as [sx | sx | | sx mx ex]; destruct y as [sy | sy | | sy my ey];
    try destruct sx; try destruct sy; try reflexivity.
  all: cbv [SFadd].
  all: change IntDef.Z.min with Z.min; change IntDef.Z.add with Z.add.
  all: rewrite (Z.min_comm ey ex); f_equal; apply Z.add_comm.
Qed.

Lemma SFmul_comm (prec emax : Z) (x y : spec_float) :
  SFmul prec emax x y = SFmul prec emax y x.
Proof.
  destruct x as [sx | sx | | sx mx ex]; destruct y as [sy | sy | | sy my ey];
    try destruct sx; try destruct sy; try reflexivity.
  all: cbv [SFmul xorb].
  all: change IntDef.Z.add with Z.add; change PosDef.Pos.mul with Pos.mul.
  all: rewrite (Pos.mul_comm my mx), (Z.add_comm ey ex); reflexivity.
Qed.

(** X10. Addition and multiplication commute: swapping the operands of [+]
    or [*] changes neither the functor's result nor, over read-only leaves,
    what the tree evaluates to. *)
Theorem add_and_mul_commute
    {Tensor : Type} `{Ext : Externals Tensor}
    (a b : float) (lhs rhs : Exp Tensor) (i : Z) (idx : TensorIndex)
    (m : Memory) :
  read_only_leaves lhs -> read_only_leaves rhs ->
  AddOp_Exec a b = AddOp_Exec b a /\
  MulOp_Exec a b = MulOp_Exec b a /\
  Eval (operator_add lhs rhs) i idx m = Eval (operator_add rhs lhs) i idx m /\
  Eval (operator_mul lhs rhs) i idx m = Eval (operator_mul rhs lhs) i idx m.
Proof.
  intros ROl ROr.
  split; [apply SFadd_comm | split; [apply SFmul_comm |]].
  unfold operator_add, operator_mul, ElementWiseBinaryOpExpression, Self.
  split; rewrite !Eval_run_value by (split; assumption); simpl;
    f_equal; [apply SFadd_comm | apply SFmul_comm].
Qed.

(** ** Conversions of scalars *)

Lemma digits2_pos_bounds (p : positive) :
  2 ^ (Z.pos (digits2_pos p) - 1) <= Z.pos p < 2 ^ Z.pos (digits2_pos p).
Proof.
  induction p as [p IH | p IH |]; simpl digits2_pos.
  - rewrite Pos2Z.inj_succ.
    replace (Z.succ (Z.pos (digits2_pos p)) - 1) with (Z.pos (digits2_pos p)) by lia.
    rewrite Z.pow_succ_r by lia.
    replace (2 ^ Z.pos (digits2_pos p)) with (2 * 2 ^ (Z.pos (digits2_pos p) - 1)) in *
      by (rewrite <- Z.pow_succ_r by lia; f_equal; lia).
    lia.
  - rewrite Pos2Z.inj_succ.
    replace (Z.succ (Z.pos (digits2_pos p)) - 1) with (Z.pos (digits2_pos p)) by lia.
    rewrite Z.pow_succ_r by lia.
    replace (2 ^ Z.pos (digits2_pos p)) with (2 * 2 ^ (Z.pos (digits2_pos p) - 1)) in *
      by (rewrite <- Z.pow_succ_r by lia; f_equal; lia).
    lia.
  - simpl. lia.
Qed.

Lemma digits2_pos_unique (p : positive) (d : Z) :
  2 ^ (d - 1) <= Z.pos p < 2 ^ d -> 0 < d -> Z.pos (digits2_pos p) = d.
Proof.
  intros [L U] Hd. pose proof (digits2_pos_bounds p) as [L' U'].
  destruct (Z.lt_trichotomy (Z.pos (digits2_pos p)) d) as [H | [H | H]]; [| exact H |].
  - exfalso. assert (2 ^ Z.pos (digits2_pos p) <= 2 ^ (d - 1)) by (apply Z.pow_le_mono_r; lia). lia.
  - exfalso. assert (2 ^ d <= 2 ^ (Z.pos (digits2_pos p) - 1)) by (apply Z.pow_le_mono_r; lia). lia.
Qed.

Lemma iter_xO_value (p k : positive) :
  Z.pos (Pos.iter xO p k) = Z.pos p * 2 ^ Z.pos k.
Proof.
  change (Pos.iter xO p k) with (Zpower.shift_pos k p).
  rewrite Zpower.shift_pos_correct. rewrite Z.pow_pos_fold. lia.
Qed.

Lemma binary_round_aux_aligned (s : bool) (mz : positive) (ez : Z) :
  Z.pos (digits2_pos mz) = 24 -> -23 <= ez <= 0 ->
  binary_round_aux 24 128 s (Z.pos mz) ez loc_Exact = S754_finite s mz ez.
Proof.
  intros D E.
  unfold binary_round_aux, shr_fexp.
  unfold Zdigits2 at 1.
  match goal with |- context [shr ?r ez ?n] =>
    replace n with 0 by (unfold fexp, emin; rewrite D; lia) end.
  cbn [shr shr_record_of_loc shr_m loc_of_shr_record round_nearest_even Zdigits2].
  match goal with |- context [shr ?r ez ?n] =>
    replace n with 0 by (unfold fexp, emin; rewrite D; lia) end.
  cbn [shr shr_m].
  destruct (Z.leb_spec ez (128 - 24)); [reflexivity | lia].
Qed.

Lemma binary_round_small (s : bool) (p : positive) :
  Z.pos p < 2 ^ 24 ->
  exists mz ez,
    binary_round 24 128 s p 0 = S754_finite s mz ez /\
    -23 <= ez <= 0 /\ Z.pos mz = Z.pos p * 2 ^ (- ez).
Proof.
  intros B.
  pose proof (digits2_pos_bounds p) as [L U].
  assert (D : 1 <= Z.pos (digits2_pos p) <= 24).
  { split; [lia |].
    destruct (Z.le_gt_cases (Z.pos (digits2_pos p)) 24) as [H | H]; [exact H |].
    exfalso.
    assert (2 ^ 24 <= 2 ^ (Z.pos (digits2_pos p) - 1))
      by (apply Z.pow_le_mono_r; lia).
    lia. }
  unfold binary_round.
  assert (F : fexp 24 128 (Z.pos (digits2_pos p) + 0) = Z.pos (digits2_pos p) - 24).
  { unfold fexp, emin. lia. }
  match goal with |- context [shl_align p 0 ?f] => replace f with (Z.pos (digits2_pos p) - 24) end.
  unfold shl_align.
  destruct (Z.pos (digits2_pos p) - 24 - 0) as [| k | k] eqn:K.
  - exists p, 0. split.
    + replace (Z.pos (digits2_pos p) - 24) with 0 by lia.
      apply binary_round_aux_aligned; lia.
    + split; [lia |]. simpl. lia.
  - lia.
  - exists (Pos.iter xO p k), (Z.pos (digits2_pos p) - 24).
    assert (V : Z.pos (Pos.iter xO p k) = Z.pos p * 2 ^ Z.pos k)
      by apply iter_xO_value.
    split; [| split].
    + apply binary_round_aux_aligned; [| lia].
      apply digits2_pos_unique; [| lia].
      rewrite V.
      replace 24 with (Z.pos (digits2_pos p) + Z.pos k) at 2 by lia.
      replace (24 - 1) with ((Z.pos (digits2_pos p) - 1) + Z.pos k) by lia.
      rewrite !Z.pow_add_r by lia.
      assert (0 < 2 ^ Z.pos k) by (apply Z.pow_pos_nonneg; lia).
      nia.
    + lia.
    + rewrite V. f_equal. f_equal. lia.
Qed.

Lemma int_value_finite (s : bool) (mz : positive) (ez : Z) (p : positive) :
  -23 <= ez <= 0 -> Z.pos mz = Z.pos p * 2 ^ (- ez) ->
  int_value (S754_finite s mz ez) = Some (if s then Z.neg p else Z.pos p).
Proof.
  intros E V. unfold int_value.
  assert (P : 0 < 2 ^ (- ez)) by (apply Z.pow_pos_nonneg; lia).
  assert (W : (if s then Z.neg mz else Z.pos mz)
              = (if s then Z.neg p else Z.pos p) * 2 ^ (- ez)).
  { destruct s; [| exact V].
    rewrite <- !Pos2Z.opp_pos, V. lia. }
  rewrite W.
  destruct (Z.leb_spec 0 ez) as [H | H].
  - assert (ez = 0) by lia. subst ez. simpl. f_equal. lia.
  - rewrite Z.mod_mul by lia. simpl Z.eqb. cbv iota.
    rewrite Z.div_mul by lia. reflexivity.
Qed.

Lemma of_Z_exact (n : Z) :
  - 2 ^ 24 <= n <= 2 ^ 24 -> int_value (Float32.of_Z n) = Some n.
Proof.
  intros B. unfold Float32.of_Z, Float32.prec, Float32.emax.
  destruct n as [| p | p].
  - reflexivity.
  - destruct (Z.eq_dec (Z.pos p) (2 ^ 24)) as [E | N].
    + change (2 ^ 24) with (Z.pos 16777216) in E. injection E as ->.
      vm_compute. reflexivity.
    + destruct (binary_round_small false p) as [mz [ez [R [E V]]]]; [lia |].
      unfold binary_normalize. rewrite R.
      apply (int_value_finite false); assumption.
  - destruct (Z.eq_dec (Z.neg p) (- 2 ^ 24)) as [E | N].
    + change (- 2 ^ 24) with (Z.neg 16777216) in E. injection E as ->.
      vm_compute. reflexivity.
    + destruct (binary_round_small true p) as [mz [ez [R [E V]]]]; [lia |].
      unfold binary_normalize. rewrite R.
      apply (int_value_finite true); assumption.
Qed.

(** X11. An [int] scalar of magnitude at most [2^24] is evaluated exactly:
    the float [TScalarExp<int>::Eval] returns stands for the very integer the
    variable holds. The bound is sharp: [2^24 + 1] evaluates to the float of
    [2^24]. *)
Theorem int_scalar_exact_up_to_2_24
    {Tensor : Type} `{Ext : Externals Tensor}
    (r : loc) (i : Z) (idx : TensorIndex) (m : Memory) :
  - 2 ^ 24 <= scalars m Tint r <= 2 ^ 24 ->
  int_value (value (Eval (Tensor := Tensor) (TScalarExp Tint r) i idx m))
    = Some (scalars m Tint r) /\
  to_float Tint (2 ^ 24 + 1) = to_float Tint (2 ^ 24).
Proof.
  intros B. split.
  - simpl. apply of_Z_exact. exact B.
  - vm_compute. reflexivity.
Qed.

(** X12. A scalar node follows its variable at every type: built before an
    assignment to the variable, it evaluates to the value assigned, converted
    to float; an assignment to any other variable in between makes no
    difference. *)
Theorem scalar_node_reads_current_value
    {Tensor : Type} `{Ext : Externals Tensor}
    (T T' : ctype) (x x' : loc) (v : cval T) (v' : cval T')
    (i : Z) (idx : TensorIndex) (m : Memory) :
  (T, x) <> (T', x') ->
  value ((sc <- Scalar (Tensor := Tensor) T x ;;
          _ <- store T x v ;;
          _ <- store T' x' v' ;;
          Eval sc i idx) m)
  = to_float T v.
Proof.
  intros N.
  unfold Scalar, TScalarExp_ctor, bind, ret, store, load, value.
  cbn -[update_scalar to_float].
  rewrite update_scalar_other by (intros E; apply N; symmetry; exact E).
  rewrite update_scalar_same. reflexivity.
Qed.

(** ** The further properties at work *)

Lemma example_nested_read_only : read_only_leaves example_nested.
Proof. repeat split. Qed.

Lemma Eval_is_Eval_value_witness :
  read_only_leaves example_nested /\
  Eval example_nested 0 [0] example_memory
    = (Float32.of_Z 21, example_memory).
Proof.
  split; [exact example_nested_read_only |].
  exact (Eval_is_Eval_value example_nested 0 [0] example_memory
           example_nested_read_only).
Defined.

Lemma operand_order_is_irrelevant_witness :
  Eval_right_first example_nested 2 [2] example_memory
    = Eval example_nested 2 [2] example_memory /\
  Shape_right_first example_nested example_memory
    = Shape example_nested example_memory.
Proof.
  exact (operand_order_is_irrelevant example_nested 2 [2] example_memory
           example_nested_read_only).
Defined.

Lemma tensor_free_Eval_ignores_position_witness :
  let e : Exp ArrayLeaf :=
    operator_div example_C (SqrtExp (TConstantExp (Float32.of_Z 16) [2; 2])) in
  tensor_free e = true /\
  Eval e 0 [0; 0] example_memory = Eval e 3 [1; 1] example_memory.
Proof.
  intros e. split; [reflexivity |].
  exact (tensor_free_Eval_ignores_position e 0 3 [0; 0] [1; 1] example_memory
           eq_refl).
Defined.

Lemma tensor_free_Eval_footprint_witness :
  let e : Exp ArrayLeaf :=
    operator_mul example_C (TConstantExp (Float32.of_Z 3) [2]) in
  let m' := update_array 10 [7] (update_scalar Tint 1 5
              (update_scalar Tfloat 2 (Float32.of_Z 9) example_memory)) in
  value (Eval e 0 [0] example_memory) = value (Eval e 0 [0] m') /\
  value (Shape e example_memory) = value (Shape e m').
Proof.
  intros e m'.
  apply (tensor_free_Eval_footprint e 0 [0] example_memory m' eq_refl).
  intros T r [H | []]. injection H as <- <-. reflexivity.
Defined.

Lemma Shape_fails_iff_incompatible_node_witness :
  read_only_leaves example_mismatch /\
  has_incompatible_node example_mismatch example_memory /\
  value (Shape example_mismatch example_memory) = None.
Proof.
  assert (RO : read_only_leaves example_mismatch) by (split; exact I).
  assert (B : has_incompatible_node example_mismatch example_memory).
  { right. right. exists [2; 3], [4; 5].
    split; [reflexivity | split; reflexivity]. }
  split; [exact RO | split; [exact B |]].
  exact (proj2 (Shape_fails_iff_incompatible_node
                  example_mismatch example_memory RO) B).
Defined.

Lemma Eval_ignores_shapes_witness :
  @Eval _ reference_externals example_mismatch 1 [0; 1] example_memory
    = @Eval _ rejecting_externals example_mismatch 1 [0; 1] example_memory /\
  @Eval _ rejecting_externals example_nested 1 [1] example_memory
    = (Float32.of_Z 23, example_memory).
Proof.
  split.
  - exact (Eval_ignores_shapes reference_externals rejecting_externals
             example_mismatch 1 [0; 1] example_memory
             (fun _ => eq_refl) (fun _ => eq_refl)
             (fun _ _ _ _ => eq_refl)).
  - exact (eq_sym (Eval_ignores_shapes reference_externals rejecting_externals
             example_nested 1 [1] example_memory
             (fun _ => eq_refl) (fun _ => eq_refl)
             (fun _ _ _ _ => eq_refl))).
Defined.

Lemma Shape_ignores_values_witness :
  @Shape _ reference_externals example_nested example_memory
    = @Shape _ zeroing_externals example_nested example_memory.
Proof.
  exact (Shape_ignores_values reference_externals zeroing_externals
           example_nested example_memory
           (fun _ _ => eq_refl) (fun _ _ => eq_refl)).
Defined.

Lemma add_and_mul_commute_witness :
  read_only_leaves example_A /\ read_only_leaves example_C /\
  Eval (operator_mul example_A example_C) 2 [2] example_memory
    = Eval (operator_mul example_C example_A) 2 [2] example_memory.
Proof.
  assert (HA : read_only_leaves example_A) by apply ArrayLeaf_read_only.
  split; [exact HA | split; [exact I |]].
  exact (proj2 (proj2 (proj2
           (add_and_mul_commute Float32.zero Float32.zero
              example_A example_C 2 [2] example_memory HA I)))).
Defined.

Lemma int_scalar_exact_up_to_2_24_witness :
  int_value (value (Eval (Tensor := ArrayLeaf) (TScalarExp Tint 1) 0 []
                       (update_scalar Tint 1 (-16777215) example_memory)))
    = Some (-16777215).
Proof.
  apply (int_scalar_exact_up_to_2_24 (Tensor := ArrayLeaf) 1 0 []
           (update_scalar Tint 1 (-16777215) example_memory)).
  simpl. lia.
Defined.

Lemma scalar_node_reads_current_value_witness :
  value ((sc <- Scalar (Tensor := ArrayLeaf) Tdouble 1 ;;
          _ <- store Tdouble 1 (S754_finite false 1 (-1)) ;;
          _ <- store Tfloat 1 Float32.zero ;;
          Eval sc 4 [4]) example_memory)
  = S754_finite false 8388608 (-24).
Proof.
  apply (scalar_node_reads_current_value (Tensor := ArrayLeaf)
           Tdouble Tfloat 1 1 (S754_finite false 1 (-1)) Float32.zero
           4 [4] example_memory).
  discriminate.
Defined.

(** ** Integers beyond the mantissa *)

Lemma shr_1_m (r : shr_record) :
  0 <= shr_m r -> shr_m (shr_1 r) = shr_m r / 2.
Proof.
  destruct r as [m b c]. simpl shr_m at 1 3. intros H.
  rewrite <- Z.div2_div.
  destruct m as [| [q | q |] | q]; try reflexivity; lia.
Qed.

Lemma iter_pos_shr_1_m (k : positive) :
  forall r, 0 <= shr_m r ->
  shr_m (iter_pos shr_1 k r) = shr_m r / 2 ^ Z.pos k.
Proof.
  induction k as [k IH | k IH |]; intros r H; simpl iter_pos.
  - assert (H1 : 0 <= shr_m (shr_1 r)) by (rewrite shr_1_m by lia; apply Z.div_pos; lia).
    assert (H2 : 0 <= shr_m (iter_pos shr_1 k (shr_1 r)))
      by (rewrite IH by lia; apply Z.div_pos; [lia | apply Z.pow_pos_nonneg; lia]).
    rewrite IH, IH, shr_1_m by assumption.
    rewrite !Z.div_div by (try apply Z.pow_pos_nonneg; lia).
    f_equal. rewrite <- Z.pow_add_r, <- Z.pow_succ_r by lia. f_equal. lia.
  - assert (H2 : 0 <= shr_m (iter_pos shr_1 k r))
      by (rewrite IH by lia; apply Z.div_pos; [lia | apply Z.pow_pos_nonneg; lia]).
    rewrite IH, IH by assumption.
    rewrite !Z.div_div by (try apply Z.pow_pos_nonneg; lia).
    f_equal. rewrite <- Z.pow_add_r by lia. f_equal. lia.
  - rewrite shr_1_m by assumption. reflexivity.
Qed.

Lemma shr_fexp_high (p : positive) (e : Z) (l : location) :
  24 <= Z.pos (digits2_pos p) ->
  -149 <= Z.pos (digits2_pos p) + e - 24 ->
  exists r,
    shr_fexp 24 128 (Z.pos p) e l = (r, e + (Z.pos (digits2_pos p) - 24)) /\
    shr_m r = Z.pos p / 2 ^ (Z.pos (digits2_pos p) - 24).
Proof.
  intros D E. unfold shr_fexp.
  cbn [Zdigits2].
  match goal with |- context [shr ?r e ?n] =>
    replace n with (Z.pos (digits2_pos p) - 24)
      by (unfold fexp, emin; lia) end.
  assert (M : forall l0, shr_m (shr_record_of_loc (Z.pos p) l0) = Z.pos p).
  { intros [| [| |]]; reflexivity. }
  unfold shr.
  destruct (Z.pos (digits2_pos p) - 24) as [| k | k] eqn:K.
  - eexists. split; [f_equal; lia |]. rewrite M. simpl. rewrite Z.div_1_r. reflexivity.
  - eexists. split; [reflexivity |].
    rewrite iter_pos_shr_1_m by (rewrite M; lia). rewrite M. reflexivity.
  - lia.
Qed.

Lemma round_nearest_even_bounds (m : Z) (l : location) :
  m <= round_nearest_even m l <= m + 1.
Proof.
  destruct l as [| [| |]]; simpl; try lia.
  destruct (Z.even m); lia.
Qed.

Lemma binary_round_aux_high (s : bool) (p : positive) (e : Z) :
  24 <= Z.pos (digits2_pos p) ->
  -149 <= Z.pos (digits2_pos p) + e - 24 ->
  exists (m' : positive) (e' m2 : Z),
    binary_round_aux 24 128 s (Z.pos p) e loc_Exact
      = (if e' <=? 104 then S754_finite s m' e' else S754_infinity s) /\
    e + (Z.pos (digits2_pos p) - 24) <= e' <= e + (Z.pos (digits2_pos p) - 24) + 1 /\
    Z.pos m' * 2 ^ (e' - (e + (Z.pos (digits2_pos p) - 24))) = m2 /\
    Z.pos p / 2 ^ (Z.pos (digits2_pos p) - 24) <= m2
      <= Z.pos p / 2 ^ (Z.pos (digits2_pos p) - 24) + 1.
Proof.
  intros D E.
  set (d := Z.pos (digits2_pos p)) in *.
  pose proof (digits2_pos_bounds p) as [L U]. fold d in L, U.
  assert (P : 0 < 2 ^ (d - 24)) by (apply Z.pow_pos_nonneg; lia).
  assert (S1 : 2 ^ (d - 1) = 2 ^ 23 * 2 ^ (d - 24))
    by (rewrite <- Z.pow_add_r by lia; f_equal; lia).
  assert (S2 : 2 ^ d = 2 ^ 24 * 2 ^ (d - 24))
    by (rewrite <- Z.pow_add_r by lia; f_equal; lia).
  assert (M1 : 2 ^ 23 <= Z.pos p / 2 ^ (d - 24) < 2 ^ 24).
  { split.
    - apply Z.div_le_lower_bound; lia.
    - apply Z.div_lt_upper_bound; lia. }
  unfold binary_round_aux.
  destruct (shr_fexp_high p e loc_Exact D E) as [r [R M]]. fold d in R, M.
  rewrite R.
  pose proof (round_nearest_even_bounds (shr_m r) (loc_of_shr_record r)) as B.
  remember (round_nearest_even (shr_m r) (loc_of_shr_record r)) as m2 eqn:Q.
  rewrite M in B.
  destruct m2 as [| q | q]; [lia | | lia].
  pose proof (digits2_pos_bounds q) as [Lq Uq].
  set (d2 := Z.pos (digits2_pos q)) in *.
  assert (D2 : 24 <= d2 <= 25).
  { split.
    - destruct (Z.le_gt_cases 24 d2) as [H | H]; [exact H | exfalso].
      assert (2 ^ d2 <= 2 ^ 23) by (apply Z.pow_le_mono_r; lia). lia.
    - destruct (Z.le_gt_cases d2 25) as [H | H]; [exact H | exfalso].
      assert (2 ^ 25 <= 2 ^ (d2 - 1)) by (apply Z.pow_le_mono_r; lia). lia. }
  destruct (shr_fexp_high q (e + (d - 24)) loc_Exact) as [r' [R' M']];
    [fold d2; lia | fold d2; lia |].
  fold d2 in R', M'. rewrite R'.
  assert (X : Z.pos q = (Z.pos q / 2 ^ (d2 - 24)) * 2 ^ (d2 - 24)).
  { assert (C : d2 = 24 \/ d2 = 25) by lia. destruct C as [C | C]; rewrite C.
    - simpl. rewrite Z.div_1_r. lia.
    - rewrite C in Lq. change (2 ^ (25 - 1)) with (2 ^ 24) in Lq.
      assert (Z.pos q = 2 ^ 24) by lia.
      replace (Z.pos q) with (2 ^ 24). reflexivity. }
  assert (P2 : 0 < 2 ^ (d2 - 24)) by (apply Z.pow_pos_nonneg; lia).
  destruct (shr_m r') as [| m' | m'] eqn:SM; [nia | | nia].
  exists m', (e + (d - 24) + (d2 - 24)), (Z.pos q).
  split; [reflexivity |].
  split; [lia |].
  split; [| exact B].
  replace (e + (d - 24) + (d2 - 24) - (e + (d - 24))) with (d2 - 24) by lia.
  rewrite M'. symmetry. exact X.
Qed.

Lemma binary_round_large (s : bool) (p : positive) :
  2 ^ 24 <= Z.pos p < 2 ^ 127 ->
  exists (m' : positive) (e' : Z),
    binary_round 24 128 s p 0 = S754_finite s m' e' /\
    0 < e' /\
    Z.abs (Z.pos m' * 2 ^ e' - Z.pos p) * 2 ^ 23 <= Z.pos p.
Proof.
  intros [B1 B2].
  pose proof (digits2_pos_bounds p) as [L U].
  set (d := Z.pos (digits2_pos p)) in *.
  assert (D : 25 <= d <= 127).
  { split.
    - destruct (Z.le_gt_cases 25 d) as [H | H]; [exact H | exfalso].
      assert (2 ^ d <= 2 ^ 24) by (apply Z.pow_le_mono_r; lia). lia.
    - destruct (Z.le_gt_cases d 127) as [H | H]; [exact H | exfalso].
      assert (2 ^ 127 <= 2 ^ (d - 1)) by (apply Z.pow_le_mono_r; lia). lia. }
  unfold binary_round.
  match goal with |- context [shl_align p 0 ?f] =>
    replace f with (d - 24) by (unfold fexp, emin; fold d; lia) end.
  unfold shl_align.
  destruct (d - 24 - 0) as [| k | k] eqn:K; [lia | | lia].
  destruct (binary_round_aux_high s p 0) as [m' [e' [m2 [R [E [V W]]]]]];
    [fold d; lia | fold d; lia |].
  fold d in E, V, W.
  exists m', e'. rewrite R.
  destruct (Z.leb_spec e' 104) as [_ | H]; [| lia].
  split; [reflexivity |]. split; [lia |].
  assert (P : 0 < 2 ^ (d - 24)) by (apply Z.pow_pos_nonneg; lia).
  assert (S1 : 2 ^ (d - 1) = 2 ^ 23 * 2 ^ (d - 24))
    by (rewrite <- Z.pow_add_r by lia; f_equal; lia).
  assert (V' : Z.pos m' * 2 ^ e' = m2 * 2 ^ (d - 24)).
  { rewrite <- V. replace e' with ((e' - (0 + (d - 24))) + (d - 24)) at 1 by lia.
    rewrite Z.pow_add_r by lia. lia. }
  rewrite V'.
  pose proof (Z.div_mod (Z.pos p) (2 ^ (d - 24))) as DM.
  pose proof (Z.mod_pos_bound (Z.pos p) (2 ^ (d - 24)) P) as MB.
  specialize (DM ltac:(lia)).
  nia.
Qed.

(** X13. For every 32-bit [int], [TScalarExp<int>::Eval] returns a finite
    float, never NaN or an infinity, and the integer that float stands for is
    within a relative error of [2^-23] of the variable's value. *)
Theorem int_scalar_relative_error
    {Tensor : Type} `{Ext : Externals Tensor}
    (r : loc) (i : Z) (idx : TensorIndex) (m : Memory) :
  - 2 ^ 31 <= scalars m Tint r < 2 ^ 31 ->
  exists n' : Z,
    int_value (value (Eval (Tensor := Tensor) (TScalarExp Tint r) i idx m))
      = Some n' /\
    Z.abs (n' - scalars m Tint r) * 2 ^ 23 <= Z.abs (scalars m Tint r).
Proof.
  intros B. simpl. set (n := scalars m Tint r) in *.
  destruct (Z_le_gt_dec (Z.abs n) (2 ^ 24)) as [S | L].
  - exists n. split; [apply of_Z_exact; lia |].
    replace (n - n) with 0 by lia. simpl. lia.
  - unfold Float32.of_Z, Float32.prec, Float32.emax, binary_normalize.
    destruct n as [| p | p]; [simpl in L; lia | |].
    + destruct (binary_round_large false p) as [m' [e' [R [E V]]]]; [lia |].
      rewrite R. exists (Z.pos m' * 2 ^ e'). split; [| exact V].
      unfold int_value. destruct (Z.leb_spec 0 e'); [reflexivity | lia].
    + destruct (binary_round_large true p) as [m' [e' [R [E V]]]]; [lia |].
      rewrite R. exists (Z.neg m' * 2 ^ e'). split.
      * unfold int_value. destruct (Z.leb_spec 0 e'); [reflexivity | lia].
      * rewrite <- !Pos2Z.opp_pos.
        replace (- Z.pos m' * 2 ^ e' - - Z.pos p)
          with (- (Z.pos m' * 2 ^ e' - Z.pos p)) by lia.
        rewrite !Z.abs_opp. exact V.
Qed.

Lemma int_scalar_relative_error_witness :
  exists n' : Z,
    int_value (value (Eval (Tensor := ArrayLeaf) (TScalarExp Tint 1) 0 []
                         (update_scalar Tint 1 2147483647 example_memory)))
      = Some n' /\
    Z.abs (n' - 2147483647) * 2 ^ 23 <= 2147483647.
Proof.
  apply (int_scalar_relative_error (Tensor := ArrayLeaf) 1 0 []
           (update_scalar Tint 1 2147483647 example_memory)).
  simpl. lia.
Defined.

(** ** Exact integer arithmetic *)

Lemma shr_1_exact (m : Z) :
  0 <= m -> m mod 2 = 0 ->
  shr_1 {| shr_m := m; shr_r := false; shr_s := false |}
  = {| shr_m := m / 2; shr_r := false; shr_s := false |}.
Proof.
  intros N E. rewrite <- Z.div2_div.
  destruct m as [| [q | q |] | q]; try reflexivity; try lia.
  - rewrite Pos2Z.inj_xI in E. rewrite Z.add_comm, Z.mul_comm, Z.mod_add in E by lia.
    discriminate E.
  - discriminate E.
Qed.

Lemma div_exact (a b c : Z) : 0 < b -> a = c * b -> a / b = c.
Proof. intros P ->. apply Z.div_mul. lia. Qed.

Lemma mod_exact (a b c : Z) : 0 < b -> a = c * b -> a mod b = 0.
Proof. intros P ->. apply Z.mod_mul. lia. Qed.

Lemma iter_pos_shr_1_exact (k : positive) :
  forall m, 0 <= m -> m mod 2 ^ Z.pos k = 0 ->
  iter_pos shr_1 k {| shr_m := m; shr_r := false; shr_s := false |}
  = {| shr_m := m / 2 ^ Z.pos k; shr_r := false; shr_s := false |}.
Proof.
  induction k as [k IH | k IH |]; intros m N E; cbn [iter_pos].
  - assert (P : 0 < 2 ^ Z.pos k) by (apply Z.pow_pos_nonneg; lia).
    assert (X : 2 ^ Z.pos k~1 = 2 * (2 ^ Z.pos k * 2 ^ Z.pos k))
      by (rewrite <- Z.pow_add_r, <- Z.pow_succ_r by lia; f_equal; lia).
    rewrite X in *.
    apply Z.mod_divide in E; [| lia]. destruct E as [c E].
    assert (C : 0 <= c) by nia.
    assert (E1 : m / 2 = c * (2 ^ Z.pos k * 2 ^ Z.pos k))
      by (apply div_exact; lia).
    assert (E2 : m / 2 / 2 ^ Z.pos k = c * 2 ^ Z.pos k)
      by (rewrite E1; apply div_exact; lia).
    rewrite shr_1_exact;
      [| lia | apply (mod_exact m 2 (c * (2 ^ Z.pos k * 2 ^ Z.pos k))); lia].
    rewrite IH;
      [| rewrite E1; nia
       | rewrite E1; apply (mod_exact _ _ (c * 2 ^ Z.pos k)); lia].
    rewrite IH;
      [| rewrite E2; nia | rewrite E2; apply (mod_exact _ _ c); lia].
    f_equal. rewrite !Z.div_div by lia. reflexivity.
  - assert (P : 0 < 2 ^ Z.pos k) by (apply Z.pow_pos_nonneg; lia).
    assert (X : 2 ^ Z.pos k~0 = 2 ^ Z.pos k * 2 ^ Z.pos k)
      by (rewrite <- Z.pow_add_r by lia; f_equal; lia).
    rewrite X in *.
    apply Z.mod_divide in E; [| lia]. destruct E as [c E].
    assert (C : 0 <= c) by nia.
    assert (E1 : m / 2 ^ Z.pos k = c * 2 ^ Z.pos k)
      by (apply div_exact; lia).
    rewrite IH; [| lia | apply (mod_exact _ _ (c * 2 ^ Z.pos k)); lia].
    rewrite IH; [| rewrite E1; nia | rewrite E1; apply (mod_exact _ _ c); lia].
    f_equal. rewrite !Z.div_div by lia. reflexivity.
  - apply shr_1_exact; assumption.
Qed.

Lemma digits2_pos_scaled (p q : positive) (k : Z) :
  0 <= k -> Z.pos q = Z.pos p * 2 ^ k ->
  Z.pos (digits2_pos q) = Z.pos (digits2_pos p) + k.
Proof.
  intros K E. pose proof (digits2_pos_bounds p) as [L U].
  assert (P : 0 < 2 ^ k) by (apply Z.pow_pos_nonneg; lia).
  apply digits2_pos_unique; [| lia].
  rewrite E.
  replace (Z.pos (digits2_pos p) + k - 1) with ((Z.pos (digits2_pos p) - 1) + k) by lia.
  rewrite !Z.pow_add_r by lia. nia.
Qed.

(** [q * 2^(-k)] is the integer [p < 2^24]: rounding it gives the normal
    float that stands for [p]. *)
Lemma binary_round_scaled (s : bool) (p q : positive) (k : Z) :
  0 <= k -> Z.pos q = Z.pos p * 2 ^ k -> Z.pos p < 2 ^ 24 ->
  exists m' e',
    binary_round 24 128 s q (- k) = S754_finite s m' e' /\
    -23 <= e' <= 0 /\ 2 ^ 23 <= Z.pos m' < 2 ^ 24 /\
    Z.pos m' = Z.pos p * 2 ^ (- e').
Proof.
  intros K E B.
  pose proof (digits2_pos_bounds p) as [L U].
  set (d := Z.pos (digits2_pos p)) in *.
  assert (D : 1 <= d <= 24).
  { split; [unfold d; lia |].
    destruct (Z.le_gt_cases d 24) as [H | H]; [exact H | exfalso].
    assert (2 ^ 24 <= 2 ^ (d - 1)) by (apply Z.pow_le_mono_r; lia). lia. }
  pose proof (digits2_pos_scaled p q k K E) as DQ. fold d in DQ.
  assert (N : 2 ^ 23 <= Z.pos p * 2 ^ (24 - d) < 2 ^ 24).
  { assert (0 < 2 ^ (24 - d)) by (apply Z.pow_pos_nonneg; lia).
    replace (2 ^ 23) with (2 ^ (d - 1) * 2 ^ (24 - d))
      by (rewrite <- Z.pow_add_r by lia; f_equal; lia).
    replace (2 ^ 24) with (2 ^ d * 2 ^ (24 - d))
      by (rewrite <- Z.pow_add_r by lia; f_equal; lia).
    nia. }
  unfold binary_round.
  match goal with |- context [shl_align q (- k) ?f] =>
    replace f with (d - 24) by (unfold fexp, emin; rewrite DQ; lia) end.
  unfold shl_align.
  destruct (d - 24 - - k) as [| t | t] eqn:T.
  - (* already aligned *)
    assert (k = 24 - d) by lia. subst k.
    exists q, (- (24 - d)). split; [apply binary_round_aux_aligned; lia |].
    replace (- - (24 - d)) with (24 - d) by lia.
    rewrite E. split; [lia | split; [exact N | reflexivity]].
  - (* more digits than the mantissa holds: shift right, exactly *)
    exists (Z.to_pos (Z.pos p * 2 ^ (24 - d))), (d - 24).
    assert (V : Z.pos (Z.to_pos (Z.pos p * 2 ^ (24 - d))) = Z.pos p * 2 ^ (24 - d))
      by (apply Z2Pos.id; lia).
    split; [| rewrite V; replace (- (d - 24)) with (24 - d) by lia; repeat split; lia].
    unfold binary_round_aux, shr_fexp. cbn [Zdigits2 shr_record_of_loc].
    match goal with |- context [shr ?r (- k) ?n] =>
      replace n with (Z.pos t) by (unfold fexp, emin; rewrite DQ; lia) end.
    unfold shr at 1.
    assert (QT : Z.pos q = (Z.pos p * 2 ^ (24 - d)) * 2 ^ Z.pos t).
    { rewrite E. rewrite <- Z.mul_assoc, <- Z.pow_add_r by lia.
      f_equal. f_equal. lia. }
    assert (PT : 0 < 2 ^ Z.pos t) by (apply Z.pow_pos_nonneg; lia).
    rewrite iter_pos_shr_1_exact;
      [| lia | rewrite QT; apply Z.mod_mul; lia].
    replace (Z.pos q / 2 ^ Z.pos t) with (Z.pos p * 2 ^ (24 - d))
      by (rewrite QT, Z.div_mul by lia; reflexivity).
    cbn [shr_m loc_of_shr_record round_nearest_even].
    rewrite <- V. cbn [Zdigits2 shr_record_of_loc].
    assert (DM : Z.pos (digits2_pos (Z.to_pos (Z.pos p * 2 ^ (24 - d)))) = 24)
      by (apply digits2_pos_unique; [rewrite V; exact N | lia]).
    match goal with |- context [shr ?r ?e ?n] =>
      replace n with 0 by (unfold fexp, emin; rewrite DM; lia) end.
    cbn [shr shr_m].
    replace (- k + Z.pos t) with (d - 24) by lia.
    destruct (Z.leb_spec (d - 24) (128 - 24)); [reflexivity | lia].
  - (* fewer digits: shift left *)
    exists (Pos.iter xO q t), (d - 24).
    assert (V : Z.pos (Pos.iter xO q t) = Z.pos p * 2 ^ (24 - d)).
    { rewrite iter_xO_value, E, <- Z.mul_assoc, <- Z.pow_add_r by lia.
      f_equal. f_equal. lia. }
    split; [| rewrite V; replace (- (d - 24)) with (24 - d) by lia; repeat split; lia].
    apply binary_round_aux_aligned; [| lia].
    apply digits2_pos_unique; [rewrite V; exact N | lia].
Qed.

Lemma small_int_repr_int_value (x : spec_float) (n : Z) :
  small_int_repr x n -> int_value x = Some n.
Proof.
  destruct x as [s | s | | s m e]; simpl; try contradiction.
  - intros ->. reflexivity.
  - intros [E [M V]]. rewrite V.
    assert (P : 0 < 2 ^ (- e)) by (apply Z.pow_pos_nonneg; lia).
    destruct (Z.leb_spec 0 e) as [H | H].
    + assert (e = 0) by lia. subst e. simpl. f_equal. lia.
    + rewrite Z.mod_mul by lia. simpl Z.eqb. cbv iota.
      rewrite Z.div_mul by lia. reflexivity.
Qed.

Lemma small_int_repr_bound (x : spec_float) (n : Z) :
  small_int_repr x n -> Z.abs n < 2 ^ 24.
Proof.
  destruct x as [s | s | | s m e]; simpl; try contradiction.
  - intros ->. reflexivity.
  - intros [E [M V]].
    assert (P : 1 <= 2 ^ (- e)) by (apply (Z.pow_le_mono_r 2 0); lia).
    destruct s; nia.
Qed.

Lemma binary_round_signed (s : bool) (q : positive) (k n : Z) :
  0 <= k -> (if s then Z.neg q else Z.pos q) = n * 2 ^ k -> Z.abs n < 2 ^ 24 ->
  small_int_repr (binary_round 24 128 s q (- k)) n.
Proof.
  intros K V B.
  assert (P : 0 < 2 ^ k) by (apply Z.pow_pos_nonneg; lia).
  assert (A : Z.pos q = Z.abs n * 2 ^ k) by (destruct s; nia).
  assert (N : 0 < Z.abs n) by nia.
  destruct (binary_round_scaled s (Z.to_pos (Z.abs n)) q k K)
    as [m' [e' [R [E [M W]]]]]; rewrite ?Z2Pos.id by lia; try assumption.
  rewrite R. simpl. split; [exact E | split; [exact M |]].
  assert (P' : 0 < 2 ^ (- e')) by (apply Z.pow_pos_nonneg; lia).
  rewrite Z2Pos.id in W by lia.
  destruct s.
  - rewrite <- Pos2Z.opp_pos, W. assert (n < 0) by nia.
    replace (Z.abs n) with (- n) by lia. ring.
  - rewrite W. assert (0 < n) by nia.
    replace (Z.abs n) with n by lia. ring.
Qed.

Lemma binary_normalize_repr (S ez n : Z) :
  -23 <= ez <= 0 -> S = n * 2 ^ (- ez) -> Z.abs n < 2 ^ 24 ->
  small_int_repr (binary_normalize 24 128 S ez false) n.
Proof.
  intros E V B.
  assert (P : 0 < 2 ^ (- ez)) by (apply Z.pow_pos_nonneg; lia).
  replace ez with (- (- ez)) by lia.
  destruct S as [| q | q]; unfold binary_normalize.
  - simpl. nia.
  - apply binary_round_signed; [lia | exact V | exact B].
  - apply binary_round_signed; [lia | exact V | exact B].
Qed.

Lemma of_Z_repr (n : Z) :
  Z.abs n < 2 ^ 24 -> small_int_repr (Float32.of_Z n) n.
Proof.
  intros B. apply binary_normalize_repr; [lia | simpl; lia | exact B].
Qed.

Lemma shl_align_fst (m : positive) (e ez : Z) :
  ez <= e -> Z.pos (fst (shl_align m e ez)) = Z.pos m * 2 ^ (e - ez).
Proof.
  intros H. unfold shl_align.
  destruct (ez - e) as [| j | j] eqn:J.
  - replace (e - ez) with 0 by lia. simpl. lia.
  - lia.
  - simpl fst. rewrite iter_xO_value. f_equal. f_equal. lia.
Qed.

Lemma signed_scale (s : bool) (m : positive) (e ez n : Z) :
  ez <= e -> e <= 0 ->
  (if s then Z.neg m else Z.pos m) = n * 2 ^ (- e) ->
  cond_Zopp s (Z.pos (fst (shl_align m e ez))) = n * 2 ^ (- ez).
Proof.
  intros H H0 V. rewrite shl_align_fst by assumption.
  replace (- ez) with (- e + (e - ez)) by lia.
  rewrite Z.pow_add_r by lia.
  destruct s; unfold cond_Zopp.
  - rewrite <- Pos2Z.opp_pos in V.
    replace (Z.pos m) with (- (n * 2 ^ (- e))) by lia. ring.
  - rewrite V. ring.
Qed.

Lemma SFadd_repr (x y : spec_float) (a b : Z) :
  small_int_repr x a -> small_int_repr y b -> Z.abs (a + b) < 2 ^ 24 ->
  small_int_repr (SFadd 24 128 x y) (a + b).
Proof.
  intros X Y B.
  destruct x as [sx | sx | | sx mx ex]; simpl in X; try contradiction;
    destruct y as [sy | sy | | sy my ey]; simpl in Y; try contradiction.
  - subst. destruct sx, sy; reflexivity.
  - subst. exact Y.
  - subst. replace (a + 0) with a by lia. exact X.
  - destruct X as [Ex [Mx Vx]], Y as [Ey [My Vy]].
    cbv [SFadd].
    change IntDef.Z.min with Z.min. change IntDef.Z.add with Z.add.
    apply binary_normalize_repr; [lia | | exact B].
    rewrite (signed_scale sx mx ex _ a), (signed_scale sy my ey _ b);
      try assumption; lia.
Qed.

Lemma SFsub_repr (x y : spec_float) (a b : Z) :
  small_int_repr x a -> small_int_repr y b -> Z.abs (a - b) < 2 ^ 24 ->
  small_int_repr (SFsub 24 128 x y) (a - b).
Proof.
  intros X Y B.
  destruct x as [sx | sx | | sx mx ex]; simpl in X; try contradiction;
    destruct y as [sy | sy | | sy my ey]; simpl in Y; try contradiction.
  - subst. destruct sx, sy; reflexivity.
  - subst. destruct Y as [Ey [My Vy]]. simpl.
    split; [exact Ey | split; [exact My |]].
    destruct sy; simpl negb; cbv iota.
    + rewrite <- Pos2Z.opp_pos in Vy. lia.
    + rewrite <- Pos2Z.opp_pos. lia.
  - subst. replace (a - 0) with a by lia. exact X.
  - destruct X as [Ex [Mx Vx]], Y as [Ey [My Vy]].
    cbv [SFsub].
    change IntDef.Z.min with Z.min. change IntDef.Z.sub with Z.sub.
    apply binary_normalize_repr; [lia | | exact B].
    rewrite (signed_scale sx mx ex _ a), (signed_scale sy my ey _ b);
      try assumption; lia.
Qed.

Lemma binary_round_no_shift (s : bool) (q : positive) (e : Z) :
  24 <= Z.pos (digits2_pos q) ->
  binary_round 24 128 s q e = binary_round_aux 24 128 s (Z.pos q) e loc_Exact.
Proof.
  intros D. unfold binary_round, shl_align.
  destruct (fexp 24 128 (Z.pos (digits2_pos q) + e) - e) as [| j | j] eqn:J;
    try reflexivity.
  exfalso. unfold fexp, emin in J. lia.
Qed.

Lemma SFmul_repr (x y : spec_float) (a b : Z) :
  small_int_repr x a -> small_int_repr y b -> Z.abs (a * b) < 2 ^ 24 ->
  small_int_repr (SFmul 24 128 x y) (a * b).
Proof.
  intros X Y B.
  destruct x as [sx | sx | | sx mx ex]; simpl in X; try contradiction;
    destruct y as [sy | sy | | sy my ey]; simpl in Y; try contradiction.
  - subst. reflexivity.
  - subst. reflexivity.
  - subst. simpl. lia.
  - destruct X as [Ex [Mx Vx]], Y as [Ey [My Vy]].
    cbv [SFmul].
    change IntDef.Z.add with Z.add. change PosDef.Pos.mul with Pos.mul.
    assert (Px : 0 < 2 ^ (- ex)) by (apply Z.pow_pos_nonneg; lia).
    assert (Py : 0 < 2 ^ (- ey)) by (apply Z.pow_pos_nonneg; lia).
    assert (D : 24 <= Z.pos (digits2_pos (mx * my))).
    { pose proof (digits2_pos_bounds (mx * my)) as [_ U].
      destruct (Z.le_gt_cases 24 (Z.pos (digits2_pos (mx * my)))) as [H | H];
        [exact H | exfalso].
      assert (2 ^ Z.pos (digits2_pos (mx * my)) <= 2 ^ 23)
        by (apply Z.pow_le_mono_r; lia).
      rewrite Pos2Z.inj_mul in U. nia. }
    rewrite <- binary_round_no_shift by exact D.
    replace (ex + ey) with (- (- ex + - ey)) by lia.
    apply binary_round_signed; [lia | | exact B].
    rewrite Z.pow_add_r by lia.
    replace (a * b * (2 ^ (- ex) * 2 ^ (- ey)))
      with ((a * 2 ^ (- ex)) * (b * 2 ^ (- ey))) by ring.
    rewrite <- Vx, <- Vy.
    destruct sx, sy; reflexivity.
Qed.

Lemma int_of_float_repr (x : spec_float) (n : Z) :
  int_of_float x = Some n -> small_int_repr x n.
Proof.
  unfold int_of_float, Float32.prec, Float32.emax.
  destruct (valid_binary 24 128 x) eqn:V; [| discriminate].
  destruct (int_value x) as [n' |] eqn:I; [| discriminate].
  unfold checked, small. destruct (Z.ltb_spec (Z.abs n') (2 ^ 24)) as [B | B]; [| discriminate].
  intros H. injection H as ->.
  destruct x as [s | s | | s m e]; simpl in I; try discriminate.
  - injection I as <-. reflexivity.
  - simpl in V. unfold bounded, canonical_mantissa in V.
    apply andb_prop in V. destruct V as [C Eb].
    apply Z.eqb_eq in C. apply Z.leb_le in Eb.
    unfold fexp, emin in C.
    pose proof (digits2_pos_bounds m) as [L U].
    set (d := Z.pos (digits2_pos m)) in *.
    set (v := if s then Z.neg m else Z.pos m) in *.
    assert (Av : Z.abs v = Z.pos m) by (unfold v; destruct s; lia).
    destruct (Z.leb_spec 0 e) as [H | H].
    + (* e >= 0 *)
      injection I as <-.
      assert (e = 0).
      { destruct (Z.eq_dec e 0) as [E0 | E0]; [exact E0 | exfalso].
        assert (d = 24) by lia.
        assert (2 <= 2 ^ e) by (apply (Z.pow_le_mono_r 2 1); lia).
        rewrite Z.abs_mul, Av in B.
        replace (2 ^ (d - 1)) with (2 ^ 23) in L by (f_equal; lia).
        assert (0 < 2 ^ e) by lia. rewrite (Z.abs_eq (2 ^ e)) in B by lia.
        nia. }
      subst e. assert (d = 24) by lia.
      simpl. split; [lia |]. split.
      * replace (2 ^ (d - 1)) with (2 ^ 23) in L by (f_equal; lia).
        replace (2 ^ d) with (2 ^ 24) in U by (f_equal; lia). lia.
      * fold v. lia.
    + (* e < 0 *)
      assert (P : 0 < 2 ^ (- e)) by (apply Z.pow_pos_nonneg; lia).
      destruct (Z.eqb_spec (v mod 2 ^ (- e)) 0) as [Z0 | Z0]; [| discriminate].
      injection I as <-.
      apply Z.mod_divide in Z0; [| lia]. destruct Z0 as [c Hc].
      assert (Hd : v / 2 ^ (- e) = c) by (apply div_exact; lia).
      rewrite Hd in *.
      assert (Cn : c <> 0) by (intros ->; lia).
      assert (Le : 2 ^ (- e) <= Z.pos m) by (rewrite <- Av, Hc, Z.abs_mul, (Z.abs_eq (2 ^ (- e))) by lia; nia).
      assert (d = 24).
      { destruct (Z.eq_dec d 24) as [E0 | E0]; [exact E0 | exfalso].
        assert (e = -149) by lia. subst e.
        assert (2 ^ d <= 2 ^ 23) by (apply Z.pow_le_mono_r; lia).
        assert (2 ^ 23 < 2 ^ (- -149)) by (apply Z.pow_lt_mono_r; lia).
        lia. }
      replace (2 ^ (d - 1)) with (2 ^ 23) in L by (f_equal; lia).
      replace (2 ^ d) with (2 ^ 24) in U by (f_equal; lia).
      simpl. split; [| split; [lia | fold v; lia]].
      split; [| lia].
      destruct (Z.le_gt_cases (-23) e) as [G | G]; [exact G | exfalso].
      assert (2 ^ 24 <= 2 ^ (- e)) by (apply Z.pow_le_mono_r; lia). lia.
Qed.

Lemma small_int_repr_int_of_float (x : float) (n : Z) :
  small_int_repr x n -> int_of_float x = Some n.
Proof.
  intros R. pose proof (small_int_repr_bound x n R) as B.
  unfold int_of_float. rewrite (small_int_repr_int_value x n R).
  assert (V : valid_binary Float32.prec Float32.emax x = true).
  { destruct x as [s | s | | s mx ex]; simpl in R; try contradiction;
      try reflexivity.
    destruct R as [E [M _]].
    unfold valid_binary, bounded, canonical_mantissa, fexp, emin,
      Float32.prec, Float32.emax.
    rewrite (digits2_pos_unique mx 24) by (simpl; lia).
    apply andb_true_intro. split; [apply Z.eqb_eq | apply Z.leb_le]; lia. }
  rewrite V. unfold checked, small.
  destruct (Z.ltb_spec (Z.abs n) (2 ^ 24)); [reflexivity | lia].
Qed.

Lemma checked_Some (n k : Z) : checked n = Some k -> k = n /\ Z.abs n < 2 ^ 24.
Proof.
  unfold checked, small.
  destruct (Z.ltb_spec (Z.abs n) (2 ^ 24)) as [B | B]; [| discriminate].
  intros E. injection E as <-. split; [reflexivity | assumption].
Qed.

Lemma ReluOp_Exec_repr (x : float) (n : Z) :
  small_int_repr x n -> small_int_repr (ReluOp_Exec x) (Z.max n 0).
Proof.
  destruct x as [s | s | | s mx ex]; simpl; try contradiction.
  - intros ->. destruct s; reflexivity.
  - intros [E [M V]].
    assert (P : 0 < 2 ^ (- ex)) by (apply Z.pow_pos_nonneg; lia).
    destruct s; unfold ReluOp_Exec; simpl.
    + assert (n < 0) by nia. lia.
    + assert (0 < n) by nia. replace (Z.max n 0) with n by lia.
      split; [exact E | split; [exact M | exact V]].
Qed.

Section IntegerArithmetic.
Context {Tensor : Type} `{Ext : Externals Tensor}.

Lemma int_Eval_repr (e : Exp Tensor) (i : Z) (idx : TensorIndex) (m : Memory) :
  forall n, int_Eval e i idx m = Some n ->
  small_int_repr (Eval_value e i idx m) n.
Proof.
  induction e as [T r | v sh | t | op l IHl r IHr | op p IHp];
    intros n H.
  - apply int_of_float_repr. exact H.
  - apply int_of_float_repr. exact H.
  - apply int_of_float_repr. exact H.
  - simpl in H.
    destruct (int_Eval l i idx m) as [a |]; [| discriminate].
    destruct (int_Eval r i idx m) as [b |]; [| discriminate].
    specialize (IHl a eq_refl). specialize (IHr b eq_refl).
    destruct op; try discriminate; apply checked_Some in H;
      destruct H as [-> B]; simpl.
    + apply SFadd_repr; assumption.
    + apply SFsub_repr; assumption.
    + apply SFmul_repr; assumption.
  - simpl in H. destruct op; try discriminate.
    destruct (int_Eval p i idx m) as [a |]; [| discriminate].
    injection H as <-. simpl. apply ReluOp_Exec_repr. apply IHp. reflexivity.
Qed.

(** X14. Integer data is computed exactly: when the leaves of a tree over
    [+], [-], [*] and the rectified linear unit hold integers and every
    intermediate result stays below [2^24] in magnitude, [Eval] returns the
    float that stands for the integer result of the same expression. An
    [int] scalar below [2^24] is such a leaf. *)
Theorem Eval_exact_on_small_integers
    (e : Exp Tensor) (i : Z) (idx : TensorIndex) (m : Memory) (n : Z)
    (r : loc) :
  read_only_leaves e ->
  int_Eval e i idx m = Some n ->
  int_value (value (Eval e i idx m)) = Some n /\
  int_of_float (value (Eval e i idx m)) = Some n /\
  (Z.abs (scalars m Tint r) < 2 ^ 24 ->
   int_Eval (TScalarExp Tint r) i idx m = Some (scalars m Tint r)).
Proof.
  intros RO H.
  rewrite Eval_run_value by assumption. unfold value; simpl fst.
  pose proof (int_Eval_repr e i idx m n H) as R.
  split; [apply small_int_repr_int_value; exact R |].
  split; [apply small_int_repr_int_of_float; exact R |].
  intros B. simpl. apply small_int_repr_int_of_float. apply of_Z_repr. exact B.
Qed.

End IntegerArithmetic.

Lemma Eval_exact_on_small_integers_witness :
  let e := operator_sub (operator_mul (operator_add example_A example_B)
                                      (TScalarExp Tint 1))
                        (ReluActivateExp example_X) in
  int_Eval e 2 [2] example_memory = Some 23 /\
  int_value (value (Eval e 2 [2] example_memory)) = Some 23.
Proof.
  intros e.
  assert (RO : read_only_leaves e) by (repeat split).
  split; [reflexivity |].
  exact (proj1 (Eval_exact_on_small_integers e 2 [2] example_memory 23 1
                  RO eq_refl)).
Defined.

(** * Single precision *)

(** ** Rounding yields binary32 values *)

Lemma Zdigits2_bounds (m : Z) :
  0 < m -> 2 ^ (Zdigits2 m - 1) <= m < 2 ^ Zdigits2 m.
Proof.
  destruct m as [| p | p]; try lia. intros _. apply digits2_pos_bounds.
Qed.

Lemma Zdigits2_pos (m : Z) : 0 < m -> 0 < Zdigits2 m.
Proof. destruct m; simpl; lia. Qed.

Lemma Zdigits2_unique (m d : Z) :
  2 ^ (d - 1) <= m < 2 ^ d -> 0 < d -> Zdigits2 m = d.
Proof.
  intros B D.
  assert (0 < m) by (assert (0 < 2 ^ (d - 1)) by (apply Z.pow_pos_nonneg; lia); lia).
  destruct m as [| p | p]; try lia. apply digits2_pos_unique; assumption.
Qed.

Lemma shr_record_of_loc_m (m : Z) (l : location) :
  shr_m (shr_record_of_loc m l) = m.
Proof. destruct l as [| [| |]]; reflexivity. Qed.

(** [shr_fexp] when the mantissa has at least the digits its exponent
    allows: it moves to the exponent [fexp] asks for and divides the mantissa
    accordingly. *)
Lemma shr_fexp_spec (m e : Z) (l : location) :
  0 <= m ->
  e <= fexp 24 128 (Zdigits2 m + e) ->
  exists r,
    shr_fexp 24 128 m e l = (r, fexp 24 128 (Zdigits2 m + e)) /\
    shr_m r = m / 2 ^ (fexp 24 128 (Zdigits2 m + e) - e).
Proof.
  intros M E. unfold shr_fexp.
  change IntDef.Z.sub with Z.sub. change IntDef.Z.add with Z.add.
  set (f := fexp 24 128 (Zdigits2 m + e)) in *.
  unfold shr.
  destruct (f - e) as [| k | k] eqn:K.
  - exists (shr_record_of_loc m l). split; [f_equal; lia |].
    rewrite shr_record_of_loc_m. simpl. rewrite Z.div_1_r. reflexivity.
  - exists (iter_pos shr_1 k (shr_record_of_loc m l)).
    split; [f_equal; change IntDef.Z.add with Z.add; lia |].
    rewrite iter_pos_shr_1_m by (rewrite shr_record_of_loc_m; exact M).
    rewrite shr_record_of_loc_m. reflexivity.
  - lia.
Qed.

Lemma binary_round_aux_valid (s : bool) (m e : Z) (l : location) :
  0 <= m ->
  e <= fexp 24 128 (Zdigits2 m + e) ->
  valid_binary 24 128 (binary_round_aux 24 128 s m e l) = true.
Proof.
  intros M E.
  unfold binary_round_aux.
  destruct (shr_fexp_spec m e l M E) as [r1 [R1 M1]].
  rewrite R1.
  set (f := fexp 24 128 (Zdigits2 m + e)) in *.
  assert (F : -149 <= f) by (unfold f, fexp, emin; lia).
  assert (P1 : 0 < 2 ^ (f - e)) by (apply Z.pow_pos_nonneg; lia).
  (* the shifted mantissa *)
  assert (B1 : 0 <= shr_m r1 < 2 ^ 24 /\ (f = -149 \/ 2 ^ 23 <= shr_m r1)).
  { rewrite M1.
    destruct (Z.eq_dec m 0) as [-> | NZ].
    - rewrite Z.div_0_l by lia. split; [lia |]. left.
      unfold f, fexp, emin in *. simpl Zdigits2 in *. lia.
    - assert (Mp : 0 < m) by lia.
      pose proof (Zdigits2_bounds m Mp) as [L U].
      pose proof (Zdigits2_pos m Mp) as Dp.
      set (d := Zdigits2 m) in *.
      assert (D24 : d <= 24 + (f - e)) by (unfold f, fexp, emin; lia).
      split; [split |].
      + apply Z.div_pos; lia.
      + apply Z.div_lt_upper_bound; [lia |].
        assert (2 ^ d <= 2 ^ (24 + (f - e))) by (apply Z.pow_le_mono_r; lia).
        rewrite Z.pow_add_r in * by lia. lia.
      + destruct (Z.eq_dec f (-149)) as [F0 | F0]; [left; exact F0 | right].
        assert (Fd : f - e = d - 24) by (unfold f, fexp, emin in *; lia).
        rewrite Fd in *.
        apply Z.div_le_lower_bound; [lia |].
        replace (2 ^ (d - 1)) with (2 ^ 23 * 2 ^ (d - 24)) in L
          by (rewrite <- Z.pow_add_r by lia; f_equal; lia).
        lia. }
  pose proof (round_nearest_even_bounds (shr_m r1) (loc_of_shr_record r1)) as RB.
  remember (round_nearest_even (shr_m r1) (loc_of_shr_record r1)) as m2 eqn:Q.
  clear Q R1 M1.
  destruct B1 as [[B1a B1b] B1c].
  assert (M2 : 0 <= m2 <= 2 ^ 24) by lia.
  assert (M2c : f = -149 \/ 2 ^ 23 <= m2) by lia.
  (* digits of the rounded mantissa *)
  assert (D2 : Zdigits2 m2 <= 25 /\ (f = -149 \/ 24 <= Zdigits2 m2)).
  { destruct (Z.eq_dec m2 0) as [-> | NZ]; [simpl; lia |].
    assert (Mp : 0 < m2) by lia.
    pose proof (Zdigits2_bounds m2 Mp) as [L U].
    split.
    - destruct (Z.le_gt_cases (Zdigits2 m2) 25) as [H | H]; [exact H | exfalso].
      assert (2 ^ 25 <= 2 ^ (Zdigits2 m2 - 1)) by (apply Z.pow_le_mono_r; lia).
      lia.
    - destruct M2c as [H | H]; [left; exact H | right].
      destruct (Z.le_gt_cases 24 (Zdigits2 m2)) as [G | G]; [exact G | exfalso].
      assert (2 ^ Zdigits2 m2 <= 2 ^ 23) by (apply Z.pow_le_mono_r; lia).
      lia. }
  assert (E2 : f <= fexp 24 128 (Zdigits2 m2 + f)).
  { unfold fexp, emin. destruct (Z.eq_dec m2 0) as [-> | NZ]; simpl Zdigits2; lia. }
  destruct (shr_fexp_spec m2 f loc_Exact (proj1 M2) E2) as [r2 [R2 M3]].
  rewrite R2.
  set (f2 := fexp 24 128 (Zdigits2 m2 + f)) in *.
  assert (N2 : f2 - f = 0 \/ (f2 - f = 1 /\ Zdigits2 m2 = 25)).
  { unfold f2, fexp, emin. destruct (Z.eq_dec m2 0) as [-> | NZ]; simpl Zdigits2; lia. }
  destruct (shr_m r2) as [| m3 | m3] eqn:SM.
  - reflexivity.
  - destruct (Z.leb_spec f2 (128 - 24)) as [Le | Gt]; [| reflexivity].
    simpl. unfold bounded, canonical_mantissa.
    apply andb_true_intro. split; [| apply Z.leb_le; exact Le].
    apply Z.eqb_eq.
    assert (Mp : 0 < m2).
    { destruct (Z.eq_dec m2 0) as [-> | NZ]; [| lia].
      rewrite Z.div_0_l in M3; [discriminate M3 |].
      apply Z.pow_nonzero; lia. }
    pose proof (Zdigits2_bounds m2 Mp) as [L U].
    assert (D3 : Z.pos (digits2_pos m3) = Zdigits2 m2 - (f2 - f)).
    { destruct N2 as [N0 | [N1 D25]].
      - rewrite N0 in *. simpl in M3. rewrite Z.div_1_r in M3. subst m2.
        simpl. lia.
      - rewrite N1 in *. rewrite D25 in *.
        apply digits2_pos_unique; [| lia].
        rewrite M3. change (2 ^ 1) with 2.
        change (2 ^ (25 - 1 - 1)) with (2 ^ 23).
        change (2 ^ (25 - 1)) with (2 ^ 24) in *.
        change (2 ^ 25) with (2 * 2 ^ 24) in U.
        split.
        + apply Z.div_le_lower_bound; lia.
        + apply Z.div_lt_upper_bound; lia. }
    rewrite D3.
    replace (Zdigits2 m2 - (f2 - f) + f2) with (Zdigits2 m2 + f) by lia.
    reflexivity.
  - exfalso.
    assert (0 <= m2 / 2 ^ (f2 - f)) by (apply Z.div_pos; [lia | apply Z.pow_pos_nonneg; lia]).
    lia.
Qed.

Lemma binary_round_valid (s : bool) (p : positive) (e : Z) :
  valid_binary 24 128 (binary_round 24 128 s p e) = true.
Proof.
  unfold binary_round, shl_align.
  change IntDef.Z.sub with Z.sub. change IntDef.Z.add with Z.add.
  set (f := fexp 24 128 (Z.pos (digits2_pos p) + e)).
  destruct (f - e) as [| j | j] eqn:J.
  - apply binary_round_aux_valid; [lia |]. simpl Zdigits2. fold f. lia.
  - apply binary_round_aux_valid; [lia |]. simpl Zdigits2. fold f. lia.
  - apply binary_round_aux_valid; [lia |]. simpl Zdigits2.
    rewrite (digits2_pos_scaled p (Pos.iter xO p j) (Z.pos j));
      [| lia | apply iter_xO_value].
    replace (Z.pos (digits2_pos p) + Z.pos j + f)
      with (Z.pos (digits2_pos p) + e) by lia.
    fold f. lia.
Qed.

Lemma binary_normalize_valid (m e : Z) (sz : bool) :
  valid_binary 24 128 (binary_normalize 24 128 m e sz) = true.
Proof.
  destruct m; simpl; [reflexivity | apply binary_round_valid ..].
Qed.

Lemma SFadd_valid (x y : spec_float) :
  valid_binary 24 128 x = true -> valid_binary 24 128 y = true ->
  valid_binary 24 128 (SFadd 24 128 x y) = true.
Proof.
  intros X Y.
  destruct x as [sx | sx | | sx mx ex]; destruct y as [sy | sy | | sy my ey];
    try destruct sx; try destruct sy; try reflexivity; try assumption.
  all: apply binary_normalize_valid.
Qed.

Lemma SFsub_valid (x y : spec_float) :
  valid_binary 24 128 x = true -> valid_binary 24 128 y = true ->
  valid_binary 24 128 (SFsub 24 128 x y) = true.
Proof.
  intros X Y.
  destruct x as [sx | sx | | sx mx ex]; destruct y as [sy | sy | | sy my ey];
    try destruct sx; try destruct sy; try reflexivity; try assumption.
  all: apply binary_normalize_valid.
Qed.

Lemma valid_finite_inv (s : bool) (m : positive) (e : Z) :
  valid_binary 24 128 (S754_finite s m e) = true ->
  -149 <= e <= 104 /\
  ((Z.pos (digits2_pos m) = 24) \/ (e = -149 /\ Z.pos (digits2_pos m) < 24)).
Proof.
  simpl. unfold bounded, canonical_mantissa, fexp, emin. intros V.
  apply andb_prop in V. destruct V as [C B].
  apply Z.eqb_eq in C. apply Z.leb_le in B. lia.
Qed.

Lemma SFmul_valid (x y : spec_float) :
  valid_binary 24 128 x = true -> valid_binary 24 128 y = true ->
  valid_binary 24 128 (SFmul 24 128 x y) = true.
Proof.
  intros X Y.
  destruct x as [sx | sx | | sx mx ex]; destruct y as [sy | sy | | sy my ey];
    try reflexivity.
  cbv [SFmul].
  change IntDef.Z.add with Z.add. change PosDef.Pos.mul with Pos.mul.
  apply binary_round_aux_valid; [lia |].
  apply valid_finite_inv in X. apply valid_finite_inv in Y.
  pose proof (digits2_pos_bounds mx) as [Lx Ux].
  pose proof (digits2_pos_bounds my) as [Ly Uy].
  pose proof (digits2_pos_bounds (mx * my)) as [Lz Uz].
  simpl Zdigits2.
  set (dx := Z.pos (digits2_pos mx)) in *.
  set (dy := Z.pos (digits2_pos my)) in *.
  set (dz := Z.pos (digits2_pos (mx * my))) in *.
  assert (Dz : dx + dy - 1 <= dz).
  { destruct (Z.le_gt_cases (dx + dy - 1) dz) as [H | H]; [exact H | exfalso].
    assert (2 ^ dz <= 2 ^ (dx + dy - 2)) by (apply Z.pow_le_mono_r; lia).
    replace (dx + dy - 2) with ((dx - 1) + (dy - 1)) in * by lia.
    rewrite Z.pow_add_r in * by (unfold dx, dy; lia).
    rewrite Pos2Z.inj_mul in Uz. nia. }
  assert (1 <= dx) by (unfold dx; lia).
  assert (1 <= dy) by (unfold dy; lia).
  unfold fexp, emin. lia.
Qed.

Lemma SFdiv_valid (x y : spec_float) :
  valid_binary 24 128 x = true -> valid_binary 24 128 y = true ->
  valid_binary 24 128 (SFdiv 24 128 x y) = true.
Proof.
  intros X Y.
  destruct x as [sx | sx | | sx mx ex]; destruct y as [sy | sy | | sy my ey];
    try reflexivity.
  apply valid_finite_inv in X. apply valid_finite_inv in Y.
  cbv [SFdiv SFdiv_core_binary].
  change IntDef.Z.sub with Z.sub. change IntDef.Z.add with Z.add.
  change IntDef.Z.min with Z.min. change IntDef.Z.div_eucl with Z.div_eucl.
  change IntDef.Z.shiftl with Z.shiftl.
  simpl Zdigits2.
  pose proof (digits2_pos_bounds mx) as [Lx Ux].
  pose proof (digits2_pos_bounds my) as [Ly Uy].
  set (d1 := Z.pos (digits2_pos mx)) in *.
  set (d2 := Z.pos (digits2_pos my)) in *.
  set (e' := Z.min (fexp 24 128 (d1 + ex - (d2 + ey))) (ex - ey)).
  set (sh := ex - ey - e').
  assert (S0 : 0 <= sh) by (unfold sh, e'; lia).
  set (m' := match sh with
             | 0 => Z.pos mx
             | Z.pos _ => Z.shiftl (Z.pos mx) sh
             | Z.neg _ => 0
             end).
  assert (M' : m' = Z.pos mx * 2 ^ sh).
  { unfold m'. destruct sh as [| k | k] eqn:K.
    - simpl. lia.
    - apply Z.shiftl_mul_pow2. lia.
    - lia. }
  destruct (Z.div_eucl m' (Z.pos my)) as [q r] eqn:DE.
  assert (Q : q = m' / Z.pos my) by (unfold Z.div; rewrite DE; reflexivity).
  assert (P : 0 < 2 ^ sh) by (apply Z.pow_pos_nonneg; lia).
  assert (Q0 : 0 <= q) by (rewrite Q; apply Z.div_pos; lia).
  apply binary_round_aux_valid; [exact Q0 |].
  destruct (Z_le_gt_dec e' (-149)) as [Lo | Hi].
  - unfold fexp, emin. lia.
  - (* above the subnormal exponent the quotient has 24 digits or more *)
    assert (E' : e' <= d1 + ex - (d2 + ey) - 24) by (unfold e', fexp, emin in *; lia).
    assert (SH : 24 - d1 + d2 <= sh) by (unfold sh; lia).
    assert (QB : 2 ^ 23 <= q).
    { rewrite Q. apply Z.div_le_lower_bound; [lia |].
      rewrite M'.
      assert (2 ^ (24 - d1 + d2) <= 2 ^ sh) by (apply Z.pow_le_mono_r; unfold d1, d2 in *; lia).
      assert (X1 : 2 ^ (24 - d1 + d2) * 2 ^ (d1 - 1) = 2 ^ 23 * 2 ^ d2).
      { rewrite <- !Z.pow_add_r by (unfold d1, d2 in *; lia). f_equal. lia. }
      assert (0 < 2 ^ (d1 - 1)) by (apply Z.pow_pos_nonneg; unfold d1; lia).
      assert (0 < 2 ^ d2) by (apply Z.pow_pos_nonneg; unfold d2; lia).
      nia. }
    assert (DQ : 24 <= Zdigits2 q).
    { assert (Qp : 0 < q) by lia.
      pose proof (Zdigits2_bounds q Qp) as [_ U].
      destruct (Z.le_gt_cases 24 (Zdigits2 q)) as [H | H]; [exact H | exfalso].
      assert (2 ^ Zdigits2 q <= 2 ^ 23) by (apply Z.pow_le_mono_r;
        [lia | pose proof (Zdigits2_pos q Qp); lia]).
      lia. }
    unfold fexp, emin. lia.
Qed.

Lemma SFsqrt_valid (x : spec_float) :
  valid_binary 24 128 x = true ->
  valid_binary 24 128 (SFsqrt 24 128 x) = true.
Proof.
  intros X.
  destruct x as [sx | sx | | sx mx ex]; try destruct sx; try reflexivity;
    try assumption.
  apply valid_finite_inv in X.
  cbv [SFsqrt SFsqrt_core_binary].
  change IntDef.Z.sub with Z.sub. change IntDef.Z.add with Z.add.
  change IntDef.Z.min with Z.min. change IntDef.Z.mul with Z.mul.
  change IntDef.Z.div2 with Z.div2. change IntDef.Z.shiftl with Z.shiftl.
  change IntDef.Z.sqrtrem with Z.sqrtrem.
  simpl Zdigits2.
  pose proof (digits2_pos_bounds mx) as [Lx Ux].
  set (d := Z.pos (digits2_pos mx)) in *.
  set (e' := Z.min (fexp 24 128 (Z.div2 (d + ex + 1))) (Z.div2 ex)).
  set (sh := ex - 2 * e').
  pose proof (Z.div2_odd ex) as Ode.
  pose proof (Z.div2_odd (d + ex + 1)) as Odd.
  assert (B0 : forall b : bool, 0 <= Z.b2z b <= 1) by (intros []; simpl; lia).
  pose proof (B0 (Z.odd ex)). pose proof (B0 (Z.odd (d + ex + 1))).
  assert (S0 : 0 <= sh) by (unfold sh, e'; lia).
  set (m' := match sh with
             | 0 => Z.pos mx
             | Z.pos _ => Z.shiftl (Z.pos mx) sh
             | Z.neg _ => 0
             end).
  assert (M' : m' = Z.pos mx * 2 ^ sh).
  { unfold m'. destruct sh as [| k | k] eqn:K.
    - simpl. lia.
    - apply Z.shiftl_mul_pow2. lia.
    - lia. }
  destruct (Z.sqrtrem m') as [q r] eqn:SR.
  assert (Q : q = Z.sqrt m') by (rewrite <- Z.sqrtrem_sqrt, SR; reflexivity).
  assert (P : 0 < 2 ^ sh) by (apply Z.pow_pos_nonneg; lia).
  assert (Q0 : 0 <= q) by (rewrite Q; apply Z.sqrt_nonneg).
  apply binary_round_aux_valid; [exact Q0 |].
  destruct (Z_le_gt_dec e' (-149)) as [Lo | Hi].
  - unfold fexp, emin. lia.
  - assert (SH : 47 - d <= sh) by (unfold sh, e', fexp, emin in *; lia).
    assert (QB : 2 ^ 23 <= q).
    { rewrite Q. apply Z.sqrt_le_square; [lia | lia |].
      rewrite M'. change (2 ^ 23 * 2 ^ 23) with (2 ^ 46).
      assert (2 ^ (47 - d) <= 2 ^ sh) by (apply Z.pow_le_mono_r; unfold d in *; lia).
      assert (X1 : 2 ^ (47 - d) * 2 ^ (d - 1) = 2 ^ 46).
      { rewrite <- !Z.pow_add_r by (unfold d in *; lia). f_equal. lia. }
      assert (0 < 2 ^ (d - 1)) by (apply Z.pow_pos_nonneg; unfold d; lia).
      nia. }
    assert (DQ : 24 <= Zdigits2 q).
    { assert (Qp : 0 < q) by lia.
      pose proof (Zdigits2_bounds q Qp) as [_ U].
      destruct (Z.le_gt_cases 24 (Zdigits2 q)) as [G | G]; [exact G | exfalso].
      assert (2 ^ Zdigits2 q <= 2 ^ 23) by (apply Z.pow_le_mono_r;
        [lia | pose proof (Zdigits2_pos q Qp); lia]).
      lia. }
    unfold fexp, emin. lia.
Qed.

Lemma binary_round_aux_canonical (s : bool) (m : positive) (e : Z) :
  valid_binary 24 128 (S754_finite s m e) = true ->
  binary_round_aux 24 128 s (Z.pos m) e loc_Exact = S754_finite s m e.
Proof.
  intros V. simpl in V. unfold bounded, canonical_mantissa in V.
  apply andb_prop in V. destruct V as [C B].
  apply Z.eqb_eq in C. apply Z.leb_le in B.
  unfold binary_round_aux, shr_fexp.
  unfold Zdigits2 at 1.
  match goal with |- context [shr ?r e ?n] =>
    replace n with 0 by (change IntDef.Z.sub with Z.sub;
                         change IntDef.Z.add with Z.add; rewrite C; lia) end.
  cbn [shr shr_record_of_loc shr_m loc_of_shr_record round_nearest_even Zdigits2].
  match goal with |- context [shr ?r e ?n] =>
    replace n with 0 by (change IntDef.Z.sub with Z.sub;
                         change IntDef.Z.add with Z.add; rewrite C; lia) end.
  cbn [shr shr_m].
  destruct (Z.leb_spec e (128 - 24)); [reflexivity | lia].
Qed.

(** Rounding a number that a binary32 value denotes exactly returns that
    value. *)
Lemma binary_round_exact (s : bool) (mf q : positive) (ef k : Z) :
  valid_binary 24 128 (S754_finite s mf ef) = true ->
  0 <= k -> Z.pos q = Z.pos mf * 2 ^ k ->
  binary_round 24 128 s q (ef - k) = S754_finite s mf ef.
Proof.
  intros V K E.
  pose proof V as V'. simpl in V'. unfold bounded, canonical_mantissa in V'.
  apply andb_prop in V'. destruct V' as [C B].
  apply Z.eqb_eq in C. apply Z.leb_le in B.
  pose proof (digits2_pos_scaled mf q k K E) as DQ.
  unfold binary_round.
  match goal with |- context [shl_align q (ef - k) ?f] =>
    replace f with ef
      by (change IntDef.Z.add with Z.add; rewrite DQ;
          replace (Z.pos (digits2_pos mf) + k + (ef - k))
            with (Z.pos (digits2_pos mf) + ef) by lia;
          symmetry; exact C) end.
  unfold shl_align.
  change IntDef.Z.sub with Z.sub.
  destruct (ef - (ef - k)) as [| t | t] eqn:T.
  - assert (k = 0) by lia. subst k.
    rewrite Z.mul_1_r in E. injection E as ->.
    replace (ef - 0) with ef by lia.
    apply binary_round_aux_canonical. exact V.
  - assert (k = Z.pos t) by lia. subst k.
    unfold binary_round_aux, shr_fexp. cbn [Zdigits2 shr_record_of_loc].
    match goal with |- context [shr ?r (ef - Z.pos t) ?n] =>
      replace n with (Z.pos t)
        by (change IntDef.Z.sub with Z.sub; change IntDef.Z.add with Z.add;
            rewrite DQ;
            replace (Z.pos (digits2_pos mf) + Z.pos t + (ef - Z.pos t))
              with (Z.pos (digits2_pos mf) + ef) by lia;
            rewrite C; lia) end.
    unfold shr at 1.
    assert (PT : 0 < 2 ^ Z.pos t) by (apply Z.pow_pos_nonneg; lia).
    rewrite iter_pos_shr_1_exact; [| lia | rewrite E; apply Z.mod_mul; lia].
    replace (Z.pos q / 2 ^ Z.pos t) with (Z.pos mf)
      by (rewrite E, Z.div_mul by lia; reflexivity).
    cbn [shr_m loc_of_shr_record round_nearest_even Zdigits2 shr_record_of_loc].
    change IntDef.Z.add with Z.add.
    replace (ef - Z.pos t + Z.pos t) with ef by lia.
    match goal with |- context [shr ?r ef ?n] =>
      replace n with 0
        by (change IntDef.Z.sub with Z.sub; change IntDef.Z.add with Z.add;
            rewrite C; lia) end.
    cbn [shr shr_m].
    destruct (Z.leb_spec ef (128 - 24)); [reflexivity | lia].
  - lia.
Qed.

(** ** Conversions, functors and trees *)

Lemma to_float_binary32 (T : ctype) (v : cval T) :
  well_formed_scalar T v -> is_binary32 (to_float T v) = true.
Proof.
  destruct T; simpl; intros W.
  - exact W.
  - destruct v as [s | s | | s mv ev]; try reflexivity.
    apply binary_round_valid.
  - apply binary_normalize_valid.
Qed.

Lemma BinaryOp_Exec_binary32 (TOp : BinaryOp) (a b : float) :
  is_binary32 a = true -> is_binary32 b = true ->
  is_binary32 (BinaryOp_Exec TOp a b) = true.
Proof.
  intros A B. destruct TOp.
  - apply SFadd_valid; assumption.
  - apply SFsub_valid; assumption.
  - apply SFmul_valid; assumption.
  - apply SFdiv_valid; assumption.
Qed.

Section SinglePrecision.
Context {Tensor : Type} `{Ext : Externals Tensor}.

Lemma UnaryOp_Exec_binary32 (TOp : UnaryOp) (a : float) :
  math_library_binary32 ->
  is_binary32 a = true -> is_binary32 (UnaryOp_Exec TOp a) = true.
Proof.
  intros ML A. destruct TOp; simpl.
  - apply ML; exact A.
  - apply SFsqrt_valid; exact A.
  - apply SFmul_valid; exact A.
  - apply ML; exact A.
  - unfold ReluOp_Exec. destruct (Float32.ltb Float32.zero a); [exact A | reflexivity].
  - destruct a; try reflexivity. exact A.
Qed.

Lemma Eval_value_binary32 (e : Exp Tensor) (i : Z) (idx : TensorIndex)
    (m : Memory) :
  math_library_binary32 -> well_formed_leaves e i idx m ->
  is_binary32 (Eval_value e i idx m) = true.
Proof.
  intros ML.
  induction e as [T r | v sh | t | op l IHl r IHr | op p IHp]; simpl; intros W.
  - apply to_float_binary32; exact W.
  - exact W.
  - exact W.
  - destruct W as [Wl Wr]. apply BinaryOp_Exec_binary32; auto.
  - apply UnaryOp_Exec_binary32; auto.
Qed.

(** C10. Evaluation is carried out in binary32 whatever the declared type
    of a scalar. [TScalarExp::Eval] returns the variable's value converted to
    float; the conversion of an [int] or a [double] is the binary32 rounding
    to nearest even, always yields a well-formed binary32 value, is exact on
    integers up to [2^24] and on doubles that hold a binary32 number, and
    rounds the others ([16777217], [16777219], [0.1]). Every functor maps
    binary32 values to a binary32 value, and so does the evaluation of any
    tree whose leaves hold binary32 data, [Math::Exp] and [Math::Log]
    returning binary32 values. *)
Theorem evaluation_is_single_precision
    (T T1 T2 : ctype) (r r1 r2 : loc) (TOp : BinaryOp) (UOp : UnaryOp)
    (e : Exp Tensor) (i : Z) (idx : TensorIndex) (m : Memory)
    (z n : Z) (d : cval Tdouble) (s : bool) (mf q : positive) (ef k : Z)
    (a b : float) :
  read_only_leaves e ->
  well_formed_leaves e i idx m ->
  math_library_binary32 ->
  is_binary32 a = true -> is_binary32 b = true ->
  - 2 ^ 24 <= n <= 2 ^ 24 ->
  is_binary32 (S754_finite s mf ef) = true ->
  0 <= k -> Z.pos q = Z.pos mf * 2 ^ k ->
  Eval (Tensor := Tensor) (TScalarExp T r) i idx m
    = (to_float T (scalars m T r), m) /\
  Eval (Tensor := Tensor)
       (TBinaryExp TOp (TScalarExp T1 r1) (TScalarExp T2 r2)) i idx m
    = (BinaryOp_Exec TOp (to_float T1 (scalars m T1 r1))
                         (to_float T2 (scalars m T2 r2)), m) /\
  Eval (Tensor := Tensor) (TUnaryExp UOp (TScalarExp T r)) i idx m
    = (UnaryOp_Exec UOp (to_float T (scalars m T r)), m) /\
  to_float Tint z = binary_normalize 24 128 z 0 false /\
  to_float Tdouble (S754_finite s q (ef - k)) = binary_round 24 128 s q (ef - k) /\
  is_binary32 (to_float Tint z) = true /\
  is_binary32 (to_float Tdouble d) = true /\
  int_value (to_float Tint n) = Some n /\
  to_float Tdouble (S754_finite s q (ef - k)) = S754_finite s mf ef /\
  to_float Tint 16777217 = S754_finite false 8388608 1 /\
  to_float Tint 16777219 = S754_finite false 8388610 1 /\
  to_float Tdouble (S754_finite false 7205759403792794 (-56))
    = S754_finite false 13421773 (-27) /\
  is_binary32 (BinaryOp_Exec TOp a b) = true /\
  is_binary32 (UnaryOp_Exec UOp a) = true /\
  is_binary32 (value (Eval e i idx m)) = true.
Proof.
  intros RO W ML A B N V K E.
  repeat match goal with |- _ /\ _ => split end; try reflexivity.
  - apply (to_float_binary32 Tint). exact I.
  - apply (to_float_binary32 Tdouble). exact I.
  - apply of_Z_exact. exact N.
  - apply binary_round_exact; assumption.
  - apply BinaryOp_Exec_binary32; assumption.
  - apply UnaryOp_Exec_binary32; assumption.
  - rewrite Eval_run_value by assumption. apply Eval_value_binary32; assumption.
Qed.
End SinglePrecision.

Lemma reference_math_binary32 :
  math_library_binary32 (Ext := reference_externals).
Proof.
  intros x V. split.
  - destruct x as [s | [|] | | s mx ex]; try reflexivity; exact V.
  - destruct x as [s | [|] | | [|] mx ex]; try reflexivity; try exact V.
    simpl. destruct (SFeqb _ _); [reflexivity | exact V].
Qed.

Lemma evaluation_is_single_precision_witness :
  is_binary32 (value (Eval example_nested 1 [1] example_memory)) = true /\
  value (Eval example_nested 1 [1] example_memory) = Float32.of_Z 23 /\
  int_value (to_float Tint (-16777216)) = Some (-16777216) /\
  to_float Tdouble (S754_finite true 6755399441055744 (-51))
    = S754_finite true 12582912 (-22) /\
  is_binary32 (to_float Tdouble (S754_finite false 9007199254740991 971))
    = true /\
  is_binary32 (DivOp_Exec (Float32.of_Z 2) (Float32.of_Z 3)) = true /\
  is_binary32 (SqrtOp_Exec (Float32.of_Z 2)) = true.
Proof.
  assert (W : well_formed_leaves example_nested 1 [1] example_memory)
    by (repeat split).
  destruct (evaluation_is_single_precision
              (Ext := reference_externals)
              Tdouble Tint Tfloat 1 1 1 DivOp SqrtOp
              example_nested 1 [1] example_memory
              2147483647 (-16777216)
              (S754_finite false 9007199254740991 971)
              true 12582912 6755399441055744 (-22) 29
              (Float32.of_Z 2) (Float32.of_Z 3)
              example_nested_read_only W reference_math_binary32
              eq_refl eq_refl ltac:(lia) eq_refl ltac:(lia) eq_refl)
    as (_ & _ & _ & _ & _ & _ & H7 & H8 & H9 & _ & _ & _ & H13 & H14 & H15).
  split; [exact H15 | split; [reflexivity |]].
  split; [exact H8 | split; [exact H9 | split; [exact H7 |]]].
  split; [exact H13 | exact H14].
Defined.

(** A [double] scalar is narrowed: [0.1] is rounded to the nearest float,
    the largest double overflows to infinity, the smallest one underflows to
    zero, and infinities and NaN pass through. *)
Example double_scalar_is_narrowed :
  to_float Tdouble (S754_finite false 7205759403792794 (-56))
    = S754_finite false 13421773 (-27) /\
  to_float Tdouble (S754_finite true 9007199254740991 971)
    = S754_infinity true /\
  to_float Tdouble (S754_finite false 1 (-1074)) = S754_zero false /\
  to_float Tdouble (S754_infinity true) = S754_infinity true /\
  to_float Tdouble S754_nan = S754_nan.
Proof. repeat split; vm_compute; reflexivity. Qed.
